(** * Sapphire framework: argument facade, run-context preconditions and
      the interaction-handler store

    A shallow embedding of
    - [src/lib/parsers/MessageArgs.ts]            (module [Args]),
    - [src/preconditions/RunIn.ts],
      [GuildNewsOnly], [GuildNewsThreadOnly]      (module [Preconditions]),
    - [InteractionHandler], [InteractionHandlerStore]
                                                  (module [InteractionHandlers]),
    together with the part of the external token stream
    ([@sapphire/lexure]'s [ArgumentStream]) that the facade drives
    (module [Lexure]). *)

From stdpp Require Import gmap strings list.

Set Default Proof Using "Type".

(** ** Results ([@sapphire/result]) and user errors ([lib/errors]) *)

Inductive Result (T E : Type) : Type :=
| Ok (t : T)
| Err (e : E).
Arguments Ok {T E} t.
Arguments Err {T E} e.

Definition isOk {T E} (r : Result T E) : bool :=
  match r with Ok _ => true | Err _ => false end.

Definition isErr {T E} (r : Result T E) : bool := negb (isOk r).

(** [result.inspectErr(cb)]: runs [cb] for its effect on an [Err], hands
    the result back untouched.  The effect is a state transformer. *)
Definition inspectErr {T E S} (r : Result T E) (cb : S -> S) (s : S) : S :=
  match r with Ok _ => s | Err _ => cb s end.

(** [UserError]: a stable [identifier] and a [message] for display (the
    field is [error_message] here, [message] being the facade's own
    field). *)
Record UserError : Type := mkUserError {
  identifier : string;
  error_message : string
}.

(** Modelled from the spec: the [Identifiers] enumeration
    ([lib/errors/Identifiers]) is not among the sources; its members are
    the names the sources refer to, each a distinct string. *)
Module Identifiers.
Definition ArgsMissing : string := "argsMissing".
Definition ArgsUnavailable : string := "argsUnavailable".
Definition PreconditionRunIn : string := "preconditionRunIn".
Definition PreconditionGuildNewsOnly : string := "preconditionGuildNewsOnly".
Definition PreconditionGuildNewsThreadOnly : string :=
  "preconditionGuildNewsThreadOnly".
End Identifiers.

(** ** The token stream *)

(** Modelled from the spec: the token stream of section 4.1 is the
    [ArgumentStream] of the external package [@sapphire/lexure], which the
    facade receives in its constructor.  Only the members that
    [MessageArgs] calls are modelled.  The cursor is the library's
    [ArgumentStream.State]: the set of used indices and a position;
    [save] hands out a copy, so checkpoints are values. *)
Module Lexure.

(** An ordered parameter ([Parameter] in the library, here after its
    plain variant [WordParameter]): its text and the separator in
    front of it. *)
Record WordParameter : Type := mkParameter {
  value : string;
  leading : string
}.

(** [join(parameters)]: the texts, glued by the separators that stood
    between them. *)
Definition join (parameters : list WordParameter) : string :=
  match parameters with
  | [] => EmptyString
  | p :: rest =>
      (value p ++ foldr (λ q acc, leading q ++ value q ++ acc) EmptyString rest)%string
  end.

Record State : Type := mkState {
  used : gset nat;
  position : nat
}.

Record ArgumentStream : Type := mkStream {
  ordered : list WordParameter;
  state : State
}.

Definition set_state (s : ArgumentStream) (st : State) : ArgumentStream :=
  {| ordered := ordered s; state := st |}.

(** [get finished()]: every ordered parameter has been used. *)
Definition finished (s : ArgumentStream) : bool :=
  bool_decide (size (used (state s)) = length (ordered s)).

(** [save()] copies the state, [restore(state)] installs one,
    [reset()] installs the initial one. *)
Definition save (s : ArgumentStream) : State := state s.

Definition restore (st : State) (s : ArgumentStream) : ArgumentStream :=
  set_state s st.

Definition reset (s : ArgumentStream) : ArgumentStream :=
  restore {| used := ∅; position := 0 |} s.

(** [while (used.has(position)) ++position]: at most [size used] steps
    are ever needed, see [skip_used_fresh]. *)
Fixpoint skip_used (fuel : nat) (u : gset nat) (pos : nat) : nat :=
  match fuel with
  | 0 => pos
  | S fuel' =>
      if bool_decide (pos ∈ u) then skip_used fuel' u (S pos) else pos
  end.

Definition next_position (s : ArgumentStream) : nat :=
  skip_used (size (used (state s))) (used (state s)) (position (state s)).

(** The parameter the next [single*] call hands to its callback. *)
Definition next_parameter (s : ArgumentStream) : option WordParameter :=
  if finished s then None else ordered s !! next_position s.

(** [singleParseAsync(predicate)]: [Err None] is the library's
    [Result.err(null)], the mark for "no parameter left".  The cursor
    moves past the parameter only when the predicate accepts it.  A
    stream that is not finished always has a parameter at
    [next_position] when it is [consistent] (lemma
    [next_parameter_consistent]); the first branch of the inner match
    only keeps the function total on other states. *)
Definition singleParse {T E} (predicate : string -> Result T E)
    (s : ArgumentStream) : Result T (option E) * ArgumentStream :=
  if finished s then (Err None, s)
  else
    let pos := next_position s in
    match ordered s !! pos with
    | None => (Err None, set_state s {| used := used (state s); position := pos |})
    | Some p =>
        match predicate (value p) with
        | Ok v =>
            (Ok v, set_state s {| used := {[pos]} ∪ used (state s);
                                  position := S pos |})
        | Err e =>
            (Err (Some e),
             set_state s {| used := used (state s); position := pos |})
        end
    end.

(** [many()], with its defaults [limit = Infinity] and
    [from = this.position]: marks every unused parameter from the
    position on as used and returns them in order; the position itself
    stays. *)
Definition many (s : ArgumentStream) : option (list WordParameter) * ArgumentStream :=
  if finished s then (None, s)
  else
    let from := position (state s) in
    let idx := filter (λ i, i ∉ used (state s))
                      (seq from (length (ordered s) - from)) in
    let parameters := omap (λ i, ordered s !! i) idx in
    (match parameters with [] => None | _ => Some parameters end,
     set_state s {| used := used (state s) ∪ list_to_set idx;
                    position := from |}).

(** [single()]: the text of the next parameter, which is consumed. *)
Definition single (s : ArgumentStream) : option string * ArgumentStream :=
  if finished s then (None, s)
  else
    let pos := next_position s in
    match ordered s !! pos with
    | None => (None, set_state s {| used := used (state s); position := pos |})
    | Some p =>
        (Some (value p),
         set_state s {| used := {[pos]} ∪ used (state s); position := S pos |})
    end.

(** [singleMap(predicate)], with its default [useAnyways = false]: the
    parameter is consumed only when the predicate answers with a value. *)
Definition singleMap {V} (predicate : string -> option V)
    (s : ArgumentStream) : option V * ArgumentStream :=
  if finished s then (None, s)
  else
    let pos := next_position s in
    match ordered s !! pos with
    | None => (None, set_state s {| used := used (state s); position := pos |})
    | Some p =>
        match predicate (value p) with
        | Some v =>
            (Some v, set_state s {| used := {[pos]} ∪ used (state s);
                                    position := S pos |})
        | None =>
            (None, set_state s {| used := used (state s); position := pos |})
        end
    end.

(** The states the library itself produces from a fresh stream through
    [single*]: exactly the indices below the position are used. *)
Definition consistent (s : ArgumentStream) : Prop :=
  used (state s) = set_seq 0 (position (state s))
  ∧ position (state s) ≤ length (ordered s).

(** The states a stream driven through [single*], [many], [reset] and
    [save]/[restore] is in: consistent, or finished. *)
Definition sound (s : ArgumentStream) : Prop :=
  consistent s ∨ finished s = true.

(** A consistent stream after one more parameter was consumed. *)
Definition advance (s : ArgumentStream) : ArgumentStream :=
  set_state s {| used := set_seq 0 (S (position (state s)));
                 position := S (position (state s)) |}.

(** A fresh stream over the given parameters. *)
Definition fresh (parameters : list WordParameter) : ArgumentStream :=
  {| ordered := parameters; state := {| used := ∅; position := 0 |} |}.

End Lexure.


(** ** The argument facade ([src/lib/parsers/MessageArgs.ts]) *)

Module Argument.
Section Argument.

Context {T Message MessageCommand CommandContext Settings : Type}.

(** [Argument.Context]: what a resolver receives next to the raw text.
    The facade fills it the same way in every extraction:
    [{ args: this, argument, messageOrInteraction: this.message,
       command: this.command, commandContext: this.commandContext,
       ...options }].
    [settings] stands for the fields of the options that are spread into
    it (bounds and the like). *)
Record Context : Type := mkContext {
  messageOrInteraction : Message;
  command : MessageCommand;
  commandContext : CommandContext;
  settings : Settings
}.

(** [IArgument]: a named resolver.  Resolvers are pure (spec, section
    3): they answer with a [Result] and do not drive the facade. *)
Record IArgument : Type := mkArgument {
  name : string;
  run : string -> Context -> Result T UserError
}.

End Argument.

Arguments Context : clear implicits.
Arguments IArgument : clear implicits.

End Argument.

Module Args.
Section Facade.

(** The resolved value type, the three parts of the invocation context
    the facade owns for its lifetime, and the further fields of the
    options of an extraction. *)
Context {T Message MessageCommand CommandContext Settings : Type}.

Abbreviation IArgument :=
  (Argument.IArgument T Message MessageCommand CommandContext Settings).

(** [options.type]: the name of a registered resolver, or a resolver
    given at the call site. *)
Inductive ArgType : Type :=
| ByName (n : string)
| Inline (a : IArgument).

Definition type_name (t : ArgType) : string :=
  match t with ByName n => n | Inline a => Argument.name a end.

(** [ArgsOptions], and [RepeatArgsOptions], which extends it by
    [times]; [times = None] is the absent field, which the loop reads as
    [Infinity]. *)
Record ArgsOptions : Type := mkOptions {
  type : ArgType;
  options_settings : Settings
}.

Record RepeatArgsOptions : Type := mkRepeatOptions {
  args_options :> ArgsOptions;
  times : option nat
}.

Abbreviation ResultType := (Result T UserError).
Abbreviation ArrayResultType := (Result (list T) UserError).

Record MessageArgs : Type := mkArgs {
  message : Message;
  command : MessageCommand;
  commandContext : CommandContext;
  parser : Lexure.ArgumentStream;
  states : list Lexure.State
}.

Definition set_parser (this : MessageArgs) (p : Lexure.ArgumentStream) : MessageArgs :=
  {| message := message this; command := command this;
     commandContext := commandContext this;
     parser := p; states := states this |}.

Definition set_states (this : MessageArgs) (st : list Lexure.State) : MessageArgs :=
  {| message := message this; command := command this;
     commandContext := commandContext this;
     parser := parser this; states := st |}.

Definition context (this : MessageArgs) (options : ArgsOptions)
  : Argument.Context Message MessageCommand CommandContext Settings :=
  {| Argument.messageOrInteraction := message this;
     Argument.command := command this;
     Argument.commandContext := commandContext this;
     Argument.settings := options_settings options |}.

(** The store of registered resolvers
    ([container.stores.get('arguments')]). *)
Variable arguments : gmap string IArgument.

(** Modelled from the spec: [resolveArgument], [unavailableArgument]
    and [missingArguments] are inherited from [Args] ([./Args]), which
    is not among the sources.  Section 4.2: a name is looked up in the
    registry, a resolver given directly is used as it is; an unknown
    name and an exhausted stream are errors of their own, told apart
    by identifier. *)
Definition resolveArgument (t : ArgType) : option IArgument :=
  match t with
  | ByName n => arguments !! n
  | Inline a => Some a
  end.

Definition quoted (s : string) : string :=
  let q := String (Ascii.Ascii false true false false false true false false)
                  EmptyString in
  (q ++ s ++ q)%string.

Definition unavailableArgument {V} (t : ArgType) : Result V UserError :=
  Err {| identifier := Identifiers.ArgsUnavailable;
         error_message :=
           ("The argument " ++ quoted (type_name t) ++ " was not found.")%string |}.

Definition missingArguments {V} : Result V UserError :=
  Err {| identifier := Identifiers.ArgsMissing;
         error_message := "There are no more arguments." |}.

(** [start()] *)
Definition start (this : MessageArgs) : MessageArgs :=
  set_parser this (Lexure.reset (parser this)).

(** [get finished()] *)
Definition finished (this : MessageArgs) : bool :=
  Lexure.finished (parser this).

(** [save()]: [this.states.push(this.parser.save())] *)
Definition save (this : MessageArgs) : MessageArgs :=
  set_states this (states this ++ [Lexure.save (parser this)]).

(** [Array.prototype.pop]: the last element and the shorter array. *)
Definition pop {A} (l : list A) : option (A * list A) :=
  match reverse l with
  | [] => None
  | x :: r => Some (x, reverse r)
  end.

(** [restore()]:
    [if (this.states.length !== 0) this.parser.restore(this.states.pop()!)] *)
Definition restore (this : MessageArgs) : MessageArgs :=
  match pop (states this) with
  | None => this
  | Some (st, rest) =>
      set_states (set_parser this (Lexure.restore st (parser this))) rest
  end.

(** [pickResult(options)] *)
Definition pickResult (options : ArgsOptions) (this : MessageArgs)
  : ResultType * MessageArgs :=
  match resolveArgument (type options) with
  | None => (unavailableArgument (type options), this)
  | Some argument =>
      let '(result, p) :=
        Lexure.singleParse
          (λ arg, Argument.run argument arg (context this options))
          (parser this) in
      match result with
      | Err None => (missingArguments, set_parser this p)
      | Err (Some e) => (Err e, set_parser this p)
      | Ok v => (Ok v, set_parser this p)
      end
  end.

(** [restResult(options)] *)
Definition restResult (options : ArgsOptions) (this : MessageArgs)
  : ResultType * MessageArgs :=
  match resolveArgument (type options) with
  | None => (unavailableArgument (type options), this)
  | Some argument =>
      if Lexure.finished (parser this) then (missingArguments, this)
      else
        let state := Lexure.save (parser this) in
        let '(parameters, p) := Lexure.many (parser this) in
        let data := Lexure.join (default [] parameters) in
        let result := Argument.run argument data (context this options) in
        (result, set_parser this (inspectErr result (Lexure.restore state) p))
  end.

(** The loop of [repeatResult]:
    [for (let i = 0, times = options.times ?? Infinity; i < times; i++)].
    [fuel] bounds the number of iterations of the model; the loop goes on
    only after a parameter was consumed, so one more than the number of
    ordered parameters is never used up (lemma [repeat_loop_fuel]). *)
Definition below (i : nat) (times : option nat) : bool :=
  match times with
  | None => true
  | Some n => bool_decide (i < n)
  end.

Fixpoint repeat_loop (fuel : nat) (argument : IArgument)
    (options : ArgsOptions) (times : option nat)
    (i : nat) (output : list T) (this : MessageArgs)
  : ArrayResultType * MessageArgs :=
  match fuel with
  | 0 => (Ok output, this)
  | S fuel' =>
      if below i times then
        let '(result, p) :=
          Lexure.singleParse
            (λ arg, Argument.run argument arg (context this options))
            (parser this) in
        match result with
        | Err None => (Ok output, set_parser this p)
        | Err (Some error) =>
            match output with
            | [] => (Err error, set_parser this p)
            | _ :: _ => (Ok output, set_parser this p)
            end
        | Ok v =>
            repeat_loop fuel' argument options times (S i) (output ++ [v])
            (set_parser this p)
        end
      else (Ok output, this)
  end.

(** [repeatResult(options)] *)
Definition repeatResult (options : RepeatArgsOptions) (this : MessageArgs)
  : ArrayResultType * MessageArgs :=
  match resolveArgument (type options) with
  | None => (unavailableArgument (type options), this)
  | Some argument =>
      if Lexure.finished (parser this) then (missingArguments, this)
      else repeat_loop (S (length (Lexure.ordered (parser this))))
                       argument options (times options) 0 [] this
  end.

(** How a call comes back: with a value, or with an exception thrown.
    [result.unwrapRaw()] gives the value of an [Ok] and throws the
    error of an [Err] as it is. *)
Inductive Raw (V : Type) : Type :=
| Returned (v : V)
| Thrown (e : UserError).
Arguments Returned {V} v.
Arguments Thrown {V} e.

Definition unwrapRaw {V} (r : Result V UserError) : Raw V :=
  match r with
  | Ok v => Returned v
  | Err e => Thrown e
  end.

(** [pick(options)], [rest(options)] and [repeat(options)]: the call of
    the [Result] twin, then [unwrapRaw]. *)
Definition pick (options : ArgsOptions) (this : MessageArgs) : Raw T * MessageArgs :=
  let '(result, this') := pickResult options this in (unwrapRaw result, this').

Definition rest (options : ArgsOptions) (this : MessageArgs) : Raw T * MessageArgs :=
  let '(result, this') := restResult options this in (unwrapRaw result, this').

Definition repeat (options : RepeatArgsOptions) (this : MessageArgs)
  : Raw (list T) * MessageArgs :=
  let '(result, this') := repeatResult options this in (unwrapRaw result, this').

(** A caller-supplied extraction ([options.type] of [peekResult] when it
    is a function): the function closes over the facade and runs
    extractions on it, in the [Result] variant ([pickResult],
    [restResult], [repeatResult], [peekResult]) or in the throwing one
    ([pick], [rest], [repeat], [peek]), goes on according to what they
    answer, and in the end returns a value of its result type [R] or
    throws.  An exception of a throwing variant ends the function: it
    is thrown on to whoever called it.  (A function that catches what
    [pick], [rest] or [repeat] throws is the one that matches on the
    answer of the [Result] twin: [unwrapRaw] throws the error of the
    [Err] as it is.) *)
Inductive Extraction (R : Type) : Type :=
| Return (r : R)
| Throw (e : UserError)
| PickThen (options : ArgsOptions) (k : ResultType -> Extraction R)
| RestThen (options : ArgsOptions) (k : ResultType -> Extraction R)
| RepeatThen (options : RepeatArgsOptions) (k : ArrayResultType -> Extraction R)
| PeekThen (options : ArgsOptions) (k : ResultType -> Extraction R)
| PeekWithThen (inner : Extraction R) (k : R -> Extraction R)
| PickRawThen (options : ArgsOptions) (k : T -> Extraction R)
| RestRawThen (options : ArgsOptions) (k : T -> Extraction R)
| RepeatRawThen (options : RepeatArgsOptions) (k : list T -> Extraction R)
| PeekRawThen (options : ArgsOptions) (k : T -> Extraction R).
Arguments Return {R} r.
Arguments Throw {R} e.
Arguments PickThen {R} options k.
Arguments RestThen {R} options k.
Arguments RepeatThen {R} options k.
Arguments PeekThen {R} options k.
Arguments PeekWithThen {R} inner k.
Arguments PickRawThen {R} options k.
Arguments RestRawThen {R} options k.
Arguments RepeatRawThen {R} options k.
Arguments PeekRawThen {R} options k.

(** [PeekArgsOptions]: [typeof options.type === 'function'] or not. *)
Inductive PeekArgsOptions : Type -> Type :=
| PeekType (options : ArgsOptions) : PeekArgsOptions ResultType
| PeekFunction {R} (f : Extraction R) : PeekArgsOptions R.

(** Running a caller-supplied extraction against the facade.  The peek
    cases are [peekResult] (and [peek]) written out: [save], the
    extraction, and [restore] once the extraction has returned; when
    the inner function throws, the exception leaves [peekResult] at its
    [await], before [restore] is reached. *)
Fixpoint call {R} (f : Extraction R) (this : MessageArgs) : Raw R * MessageArgs :=
  match f with
  | Return r => (Returned r, this)
  | Throw e => (Thrown e, this)
  | PickThen options k =>
      let '(r, this') := pickResult options this in call (k r) this'
  | RestThen options k =>
      let '(r, this') := restResult options this in call (k r) this'
  | RepeatThen options k =>
      let '(r, this') := repeatResult options this in call (k r) this'
  | PeekThen options k =>
      let '(r, this') := pickResult options (save this) in
      call (k r) (restore this')
  | PeekWithThen inner k =>
      match call inner (save this) with
      | (Returned r, this') => call (k r) (restore this')
      | (Thrown e, this') => (Thrown e, this')
      end
  | PickRawThen options k =>
      match pick options this with
      | (Returned v, this') => call (k v) this'
      | (Thrown e, this') => (Thrown e, this')
      end
  | RestRawThen options k =>
      match rest options this with
      | (Returned v, this') => call (k v) this'
      | (Thrown e, this') => (Thrown e, this')
      end
  | RepeatRawThen options k =>
      match repeat options this with
      | (Returned vs, this') => call (k vs) this'
      | (Thrown e, this') => (Thrown e, this')
      end
  | PeekRawThen options k =>
      let '(r, this') := pickResult options (save this) in
      match unwrapRaw r with
      | Returned v => call (k v) (restore this')
      | Thrown e => (Thrown e, restore this')
      end
  end.

(** [peekResult(options)]:
    [this.save(); const result = await ...; this.restore(); return result].
    There is no [try]: an exception of the supplied function passes
    through, and [restore] is not called. *)
Definition peekResult {R} (options : PeekArgsOptions R) (this : MessageArgs)
  : Raw R * MessageArgs :=
  let this1 := save this in
  match options in PeekArgsOptions R0 return Raw R0 * MessageArgs with
  | PeekFunction f =>
      match call f this1 with
      | (Returned result, this2) => (Returned result, restore this2)
      | (Thrown e, this2) => (Thrown e, this2)
      end
  | PeekType o =>
      let '(result, this2) := pickResult o this1 in
      (Returned result, restore this2)
  end.

(** [peek(options)]: [peekResult], then [unwrapRaw]. *)
Definition peek {V} (options : PeekArgsOptions (Result V UserError))
    (this : MessageArgs) : Raw V * MessageArgs :=
  match peekResult options this with
  | (Returned result, this') => (unwrapRaw result, this')
  | (Thrown e, this') => (Thrown e, this')
  end.

(** [nextMaybe(cb?)]: [this.parser.singleMap(cb)] when a callback is
    given, [this.parser.single()] otherwise; the answer is of type
    [Option<T | string>], the raw text on the right here. *)
Definition nextMaybe {V} (cb : option (string -> option V)) (this : MessageArgs)
  : option (V + string) * MessageArgs :=
  match cb with
  | Some f =>
      let '(o, p) := Lexure.singleMap f (parser this) in
      (inl <$> o, set_parser this p)
  | None =>
      let '(o, p) := Lexure.single (parser this) in
      (inr <$> o, set_parser this p)
  end.

(** [next(cb?)]: [nextMaybe], then [unwrapOr(null)]; [None] is [null]. *)
Definition next {V} (cb : option (string -> option V)) (this : MessageArgs)
  : option (V + string) * MessageArgs :=
  match cb with
  | Some f => nextMaybe (Some f) this
  | None => nextMaybe None this
  end.

(** *** Notions the properties are stated with *)

(** The cursor and every checkpoint are states the library produces. *)
Definition well_formed (this : MessageArgs) : Prop :=
  Lexure.sound (parser this)
  ∧ Forall (λ st, Lexure.sound (Lexure.set_state (parser this) st)) (states this).

(** [b] is [a] with the cursor of its parser somewhere else: same
    parameters, same checkpoint stack, same context. *)
Definition only_cursor (a b : MessageArgs) : Prop :=
  ∃ st, b = set_parser a (Lexure.set_state (parser a) st).


(** The resolver accepts the parameters [ps] one after the other, with
    the values [vs]. *)
Definition accepted (argument : IArgument)
    (ctx : Argument.Context Message MessageCommand CommandContext Settings)
    (ps : list Lexure.WordParameter) (vs : list T) : Prop :=
  Forall2 (λ q v, Argument.run argument (Lexure.value q) ctx = Ok v) ps vs.

(** The bound leaves room for [n] more turns after turn [i]. *)
Definition room (i n : nat) (times : option nat) : Prop :=
  match times with
  | None => True
  | Some N => i + n ≤ N
  end.

End Facade.

Arguments ArgType : clear implicits.
Arguments ArgsOptions : clear implicits.
Arguments RepeatArgsOptions : clear implicits.
Arguments MessageArgs : clear implicits.
Arguments Extraction : clear implicits.
Arguments PeekArgsOptions : clear implicits.
Arguments Return {T Message MessageCommand CommandContext Settings R} r.
Arguments PickThen {T Message MessageCommand CommandContext Settings R} options k.
Arguments RestThen {T Message MessageCommand CommandContext Settings R} options k.
Arguments RepeatThen {T Message MessageCommand CommandContext Settings R} options k.
Arguments PeekThen {T Message MessageCommand CommandContext Settings R} options k.
Arguments PeekWithThen {T Message MessageCommand CommandContext Settings R} inner k.
Arguments Throw {T Message MessageCommand CommandContext Settings R} e.
Arguments PickRawThen {T Message MessageCommand CommandContext Settings R} options k.
Arguments RestRawThen {T Message MessageCommand CommandContext Settings R} options k.
Arguments RepeatRawThen {T Message MessageCommand CommandContext Settings R} options k.
Arguments PeekRawThen {T Message MessageCommand CommandContext Settings R} options k.
Arguments Returned {V} v.
Arguments Thrown {V} e.

End Args.

(** ** Run-context preconditions ([src/preconditions]) *)

Module Preconditions.

(** [ChannelType] of [discord.js], under the names the sources use. *)
Inductive ChannelType : Type :=
| GuildText | DM | GuildVoice | GroupDM | GuildCategory | GuildNews
| GuildNewsThread | GuildPublicThread | GuildPrivateThread
| GuildStageVoice | GuildDirectory | GuildForum.

#[global] Instance ChannelType_eq_dec : EqDecision ChannelType.
Proof. solve_decision. Defined.

Record Channel : Type := mkChannel { channel_type : ChannelType }.

(** A [Message]: the channel it was sent in, and the thread that was
    started from it, if any ([message.thread] is [null] otherwise). *)
Record Message : Type := mkMessage {
  channel : Channel;
  thread : option Channel
}.

(** [Array.prototype.includes] *)
Definition includes (l : list ChannelType) (t : ChannelType) : bool :=
  bool_decide (t ∈ l).

(** [RunInPreconditionCommandSpecificData]: one list per transport. *)
Record RunInPreconditionCommandSpecificData : Type := mkSpecific {
  specific_messageRun : list ChannelType;
  specific_chatInputRun : list ChannelType;
  specific_contextMenuRun : list ChannelType
}.

(** [Preconditions['RunIn']['types']]: one list for every transport, or
    the record of lists; [typesIsArray] tells them apart. *)
Inductive RunInTypes : Type :=
| TypesArray (l : list ChannelType)
| TypesSpecific (d : RunInPreconditionCommandSpecificData).

(** [RunInPreconditionContext]: [types] is optional. *)
Record RunInPreconditionContext : Type := mkRunInContext {
  types : option RunInTypes
}.

(** Modelled from the spec: [ok], [error] and
    [fetchChannelFromInteraction] are inherited from
    [AllFlowsPrecondition] ([lib/structures/Precondition]), which is not
    among the sources.  Section 3: a result is ok without payload, or an
    error with identifier, message and optional context; section 4.5:
    the two interaction entry points first resolve the channel of the
    invocation. *)
Record PreconditionError : Type := mkError {
  user_error : UserError;
  error_context : option RunInTypes
}.

Abbreviation PreconditionResult := (Result unit PreconditionError).

Definition ok : PreconditionResult := Ok tt.

Definition error (identifier message : string) (context : option RunInTypes)
  : PreconditionResult :=
  Err {| user_error := {| identifier := identifier; error_message := message |};
         error_context := context |}.

(** The identifier of a refusal. *)
Definition refusal (r : PreconditionResult) : option string :=
  match r with
  | Ok _ => None
  | Err e => Some (identifier (user_error e))
  end.

Section Flows.

(** Command interactions and the channel each resolves to. *)
Context {Interaction : Type}.
Variable fetchChannelFromInteraction : Interaction -> Channel.

(** *** [RunIn] ([src/preconditions/RunIn.ts]) *)

Definition makeSharedError (context : RunInPreconditionContext) : PreconditionResult :=
  error Identifiers.PreconditionRunIn
         "You cannot run this message command in this type of channel."
         (types context).

Definition RunIn_messageRun (message : Message)
    (context : RunInPreconditionContext) : PreconditionResult :=
  match types context with
  | None => ok
  | Some (TypesArray l) =>
      let channelType := channel_type (channel message) in
      if includes l channelType then ok else makeSharedError context
  | Some (TypesSpecific d) =>
      let channelType := channel_type (channel message) in
      if includes (specific_messageRun d) channelType then ok
      else makeSharedError context
  end.

Definition RunIn_chatInputRun (interaction : Interaction)
    (context : RunInPreconditionContext) : PreconditionResult :=
  match types context with
  | None => ok
  | Some (TypesArray l) =>
      let channelType := channel_type (fetchChannelFromInteraction interaction) in
      if includes l channelType then ok else makeSharedError context
  | Some (TypesSpecific d) =>
      let channelType := channel_type (fetchChannelFromInteraction interaction) in
      if includes (specific_chatInputRun d) channelType then ok
      else makeSharedError context
  end.

Definition RunIn_contextMenuRun (interaction : Interaction)
    (context : RunInPreconditionContext) : PreconditionResult :=
  match types context with
  | None => ok
  | Some (TypesArray l) =>
      let channelType := channel_type (fetchChannelFromInteraction interaction) in
      if includes l channelType then ok else makeSharedError context
  | Some (TypesSpecific d) =>
      let channelType := channel_type (fetchChannelFromInteraction interaction) in
      if includes (specific_contextMenuRun d) channelType then ok
      else makeSharedError context
  end.

(** *** [GuildNewsThreadOnly] *)

(** [message.thread?.type === ChannelType.GuildNewsThread] *)
Definition GuildNewsThreadOnly_messageRun (message : Message) : PreconditionResult :=
  if bool_decide (channel_type <$> thread message = Some GuildNewsThread)
  then ok
  else error Identifiers.PreconditionGuildNewsThreadOnly
         "You can only run this message command in server announcement thread channels."
         None.

Definition GuildNewsThreadOnly_chatInputRun (interaction : Interaction) : PreconditionResult :=
  let channel := fetchChannelFromInteraction interaction in
  if bool_decide (channel_type channel = GuildNewsThread)
  then ok
  else error Identifiers.PreconditionGuildNewsThreadOnly
         "You can only run this chat input command in server announcement thread channels."
         None.

Definition GuildNewsThreadOnly_contextMenuRun (interaction : Interaction) : PreconditionResult :=
  let channel := fetchChannelFromInteraction interaction in
  if bool_decide (channel_type channel = GuildNewsThread)
  then ok
  else error Identifiers.PreconditionGuildNewsThreadOnly
         "You can only run this context menu command in server announcement thread channels."
         None.

(** *** [GuildNewsOnly] *)

Definition allowedTypes : list ChannelType := [GuildNews; GuildNewsThread].

Definition GuildNewsOnly_messageRun (message : Message) : PreconditionResult :=
  if includes allowedTypes (channel_type (channel message))
  then ok
  else error Identifiers.PreconditionGuildNewsOnly
         "You can only run this message command in server announcement channels."
         None.

Definition GuildNewsOnly_chatInputRun (interaction : Interaction) : PreconditionResult :=
  let channel := fetchChannelFromInteraction interaction in
  if includes allowedTypes (channel_type channel)
  then ok
  else error Identifiers.PreconditionGuildNewsOnly
         "You can only run this chat input command in server announcement channels."
         None.

Definition GuildNewsOnly_contextMenuRun (interaction : Interaction) : PreconditionResult :=
  let channel := fetchChannelFromInteraction interaction in
  if includes allowedTypes (channel_type channel)
  then ok
  else error Identifiers.PreconditionGuildNewsOnly
         "You can only run this context menu command in server announcement channels."
         None.

End Flows.

(** The transports of section 4.4 and one invocation per transport. *)
Inductive Invocation (Interaction : Type) : Type :=
| ByMessage (m : Message)
| ByChatInput (i : Interaction)
| ByContextMenu (i : Interaction).
Arguments ByMessage {Interaction} m.
Arguments ByChatInput {Interaction} i.
Arguments ByContextMenu {Interaction} i.

(** The channel an invocation resolves to: already present on a
    message, fetched for an interaction. *)
Definition resolved_channel {Interaction} (fetch : Interaction -> Channel)
    (inv : Invocation Interaction) : Channel :=
  match inv with
  | ByMessage m => channel m
  | ByChatInput i | ByContextMenu i => fetch i
  end.

(** A precondition container: its three entry points (section 4.4),
    and the entry point the framework calls for an invocation. *)
Record Container (Interaction Context : Type) : Type := mkContainer {
  messageRun : Message -> Context -> PreconditionResult;
  chatInputRun : Interaction -> Context -> PreconditionResult;
  contextMenuRun : Interaction -> Context -> PreconditionResult
}.
Arguments messageRun {Interaction Context} c.
Arguments chatInputRun {Interaction Context} c.
Arguments contextMenuRun {Interaction Context} c.

Definition entry {Interaction Context} (c : Container Interaction Context)
    (inv : Invocation Interaction) (context : Context) : PreconditionResult :=
  match inv with
  | ByMessage m => messageRun c m context
  | ByChatInput i => chatInputRun c i context
  | ByContextMenu i => contextMenuRun c i context
  end.

Definition RunIn {Interaction} (fetch : Interaction -> Channel)
  : Container Interaction RunInPreconditionContext :=
  {| messageRun := RunIn_messageRun;
     chatInputRun := RunIn_chatInputRun fetch;
     contextMenuRun := RunIn_contextMenuRun fetch |}.

(** The list a transport is decided by: the shared one, or the
    transport's own. *)
Definition consulted {Interaction} (inv : Invocation Interaction)
    (t : RunInTypes) : list ChannelType :=
  match t with
  | TypesArray l => l
  | TypesSpecific d =>
      match inv with
      | ByMessage _ => specific_messageRun d
      | ByChatInput _ => specific_chatInputRun d
      | ByContextMenu _ => specific_contextMenuRun d
      end
  end.

Definition GuildNewsThreadOnly {Interaction} (fetch : Interaction -> Channel)
  : Container Interaction unit :=
  {| messageRun := λ m _, GuildNewsThreadOnly_messageRun m;
     chatInputRun := λ i _, GuildNewsThreadOnly_chatInputRun fetch i;
     contextMenuRun := λ i _, GuildNewsThreadOnly_contextMenuRun fetch i |}.

Definition GuildNewsOnly {Interaction} (fetch : Interaction -> Channel)
  : Container Interaction unit :=
  {| messageRun := λ m _, GuildNewsOnly_messageRun m;
     chatInputRun := λ i _, GuildNewsOnly_chatInputRun fetch i;
     contextMenuRun := λ i _, GuildNewsOnly_contextMenuRun fetch i |}.

End Preconditions.

(** ** Interaction handlers and their store *)

Module InteractionHandlers.

(** [const enum InteractionHandlerTypes] *)
Inductive InteractionHandlerTypes : Type :=
| Button
| SelectMenu
| MessageComponent.

#[global] Instance InteractionHandlerTypes_eq_dec : EqDecision InteractionHandlerTypes.
Proof. solve_decision. Defined.

(** What the filters ask of a [discord.js] interaction. *)
Record Interaction : Type := mkInteraction {
  isButton : bool;
  isSelectMenu : bool;
  isMessageComponent : bool
}.

(** [InteractionHandlerFilters]: the [Map] from handler type to type
    guard, as a list of entries, and [Map.prototype.get]. *)
Definition InteractionHandlerFilters
  : list (InteractionHandlerTypes * (Interaction -> bool)) :=
  [ (Button, λ interaction, isButton interaction);
    (SelectMenu, λ interaction, isSelectMenu interaction);
    (MessageComponent, λ interaction, isMessageComponent interaction) ].

Fixpoint get {V} (key : InteractionHandlerTypes)
    (entries : list (InteractionHandlerTypes * V)) : option V :=
  match entries with
  | [] => None
  | (k, v) :: rest => if bool_decide (k = key) then Some v else get key rest
  end.

(** Modelled from the spec: [Maybe], [some], [none] and [isSome]
    ([lib/parsers/Maybe]) are not among the sources.  Section 4.6: the
    parse step answers "claimed, with an optional payload" or "not
    claimed". *)
Inductive Maybe (A : Type) : Type :=
| some (value : A)
| none.
Arguments some {A} value.
Arguments none {A}.

Definition isSome {A} (m : Maybe A) : bool :=
  match m with some _ => true | none => false end.

Section Store.

(** Payload data and thrown values. *)
Context {D Exn : Type}.

(** A value of type [unknown]: [undefined], or some data. *)
Inductive Unknown : Type :=
| undefined
| data (d : D).

(** How a call into a handler comes back: it throws while it is being
    called, or it returns something that, awaited, fulfils or rejects
    (a plain value fulfils with itself). *)
Inductive Awaited (A : Type) : Type :=
| Fulfilled (a : A)
| Rejected (reason : Exn).
Arguments Fulfilled {A} a.
Arguments Rejected {A} reason.

Inductive Completion (A : Type) : Type :=
| Returns (p : Awaited A)
| Throws (e : Exn).
Arguments Returns {A} p.
Arguments Throws {A} e.

(** [abstract class InteractionHandler]: a piece with a handler type,
    a [parse] step and a [run] step
    ([run(interaction, parsedData?): unknown]). *)
Record InteractionHandler : Type := mkHandler {
  name : string;
  interactionHandlerType : InteractionHandlerTypes;
  parse : Interaction -> Completion (Maybe Unknown);
  run : Interaction -> Unknown -> Completion Unknown
}.

(** [InteractionHandler.parse], the implementation a handler inherits
    when it does not override it: [return this.some()]. *)
Definition InteractionHandler_some (payload : Unknown) : Maybe Unknown := some payload.
Definition InteractionHandler_none : Maybe Unknown := none.

Definition InteractionHandler_parse (_interaction : Interaction)
  : Completion (Maybe Unknown) :=
  Returns (Fulfilled (InteractionHandler_some undefined)).

(** The state of [InteractionHandlerStore.run] while it iterates:
    the [promises] array, and the calls of run steps made so far. *)
Record Dispatch : Type := mkDispatch {
  promises : list (Awaited Unknown);
  invoked : list (InteractionHandler * Unknown)
}.

Definition initial : Dispatch := {| promises := []; invoked := [] |}.

(** One turn of [for (const handler of this.values())].  The second
    component is an exception that leaves the loop, if any. *)
Definition iteration (interaction : Interaction) (handler : InteractionHandler)
    (st : Dispatch) : Dispatch * option Exn :=
  match get (interactionHandlerType handler) InteractionHandlerFilters with
  | None => (st, None)
  | Some filter =>
      if negb (filter interaction) then (st, None)
      else
        match parse handler interaction with
        | Throws _ => (st, None)
        | Returns (Rejected _) => (st, None)
        | Returns (Fulfilled result) =>
            match result with
            | none => (st, None)
            | some value =>
                let called := (invoked st ++ [(handler, value)])%list in
                match run handler interaction value with
                | Throws e =>
                    ({| promises := promises st; invoked := called |}, Some e)
                | Returns p =>
                    ({| promises := promises st ++ [p]; invoked := called |}, None)
                end
            end
        end
  end.

Fixpoint loop (interaction : Interaction) (handlers : list InteractionHandler)
    (st : Dispatch) : Dispatch * option Exn :=
  match handlers with
  | [] => (st, None)
  | handler :: rest =>
      match iteration interaction handler st with
      | (st', None) => loop interaction rest st'
      | (st', Some e) => (st', Some e)
      end
  end.

(** What a call of [InteractionHandlerStore.run] amounts to: the run
    steps it called, what [Promise.allSettled] was given, and how the
    promise it returns settles.  The store is its handlers in
    iteration order. *)
Record Outcome : Type := mkOutcome {
  called : list (InteractionHandler * Unknown);
  settled : list (Awaited Unknown);
  completion : Awaited unit
}.

Definition store_run (store : list InteractionHandler) (interaction : Interaction)
  : Outcome :=
  if bool_decide (length store = 0) then
    {| called := []; settled := []; completion := Fulfilled tt |}
  else
    match loop interaction store initial with
    | (st, Some e) =>
        {| called := invoked st; settled := []; completion := Rejected e |}
    | (st, None) =>
        if bool_decide (length (promises st) = 0) then
          {| called := invoked st; settled := []; completion := Fulfilled tt |}
        else
          {| called := invoked st; settled := promises st;
             completion := Fulfilled tt |}
    end.

(** The type filter of a handler accepts the interaction. *)
Definition accepts (handler : InteractionHandler) (interaction : Interaction) : bool :=
  match get (interactionHandlerType handler) InteractionHandlerFilters with
  | None => false
  | Some filter => filter interaction
  end.

(** The parse step throws, or answers with a rejected promise. *)
Definition parse_throws (handler : InteractionHandler) (interaction : Interaction) : Prop :=
  match parse handler interaction with
  | Throws _ | Returns (Rejected _) => True
  | Returns (Fulfilled _) => False
  end.

Definition parse_claims (handler : InteractionHandler) (interaction : Interaction)
    (value : Unknown) : Prop :=
  parse handler interaction = Returns (Fulfilled (some value)).

(** What a handler has to say about an interaction: its claim, when its
    type filter accepts the interaction and its parse step claims it. *)
Definition claimed (interaction : Interaction) (handler : InteractionHandler)
  : option (InteractionHandler * Unknown) :=
  if accepts handler interaction then
    match parse handler interaction with
    | Returns (Fulfilled (some value)) => Some (handler, value)
    | _ => None
    end
  else None.

(** The run step comes back with a value or a promise. *)
Definition run_returns (handler : InteractionHandler) (interaction : Interaction) : Prop :=
  ∀ value, ∃ p, run handler interaction value = Returns p.

End Store.

Arguments Unknown : clear implicits.
Arguments Awaited : clear implicits.
Arguments Completion : clear implicits.
Arguments InteractionHandler : clear implicits.
Arguments Dispatch : clear implicits.
Arguments Outcome : clear implicits.
Arguments Fulfilled {Exn A} a.
Arguments Rejected {Exn A} reason.
Arguments Returns {Exn A} p.
Arguments Throws {Exn A} e.
Arguments undefined {D}.

End InteractionHandlers.

(** ** The listener of possible autocomplete interactions *)

Module Listeners.
Section Autocomplete.

Context {D Exn : Type}.

Abbreviation Completion := (InteractionHandlers.Completion Exn).
Abbreviation Awaited := (InteractionHandlers.Awaited Exn).

(** An [AutocompleteInteraction]: an interaction with the id and the
    name of the command it completes for. *)
Record AutocompleteInteraction : Type := mkAutocomplete {
  commandId : string;
  commandName : string;
  base : InteractionHandlers.Interaction
}.

(** A command of the command store; [autocompleteRun] is optional. *)
Record Command : Type := mkCommand {
  name : string;
  autocompleteRun : option (AutocompleteInteraction -> Completion unit)
}.

(** The payload and the two events the listener emits. *)
Record AutocompleteContext : Type := mkAutocompleteContext {
  context_commandId : string;
  context_commandName : string
}.

Record Payload : Type := mkPayload {
  payload_command : Command;
  payload_context : AutocompleteContext;
  payload_interaction : AutocompleteInteraction
}.

Inductive Event : Type :=
| CommandAutocompleteInteractionSuccess (payload : Payload)
| CommandAutocompleteInteractionError (err : Exn) (payload : Payload).

(** What a call of [CoreListener.run] amounts to: the events emitted,
    what the store of interaction handlers did when it was called, and
    how the promise of [run] settles. *)
Record Outcome : Type := mkOutcome {
  emitted : list Event;
  handlers : option (InteractionHandlers.Outcome D Exn);
  completion : Awaited unit
}.

Definition payload_of (command : Command) (interaction : AutocompleteInteraction)
  : Payload :=
  {| payload_command := command;
     payload_context := {| context_commandId := commandId interaction;
                           context_commandName := commandName interaction |};
     payload_interaction := interaction |}.

(** [commandStore.get(interaction.commandId)
      ?? commandStore.get(interaction.commandName)] *)
Definition resolve (commandStore : gmap string Command)
    (interaction : AutocompleteInteraction) : option Command :=
  match commandStore !! commandId interaction with
  | Some command => Some command
  | None => commandStore !! commandName interaction
  end.

(** [CoreListener.run(interaction)] *)
Definition run (commandStore : gmap string Command)
    (interactionHandlers : list (InteractionHandlers.InteractionHandler D Exn))
    (interaction : AutocompleteInteraction) : Outcome :=
  let fallback :=
    let outcome :=
      InteractionHandlers.store_run interactionHandlers (base interaction) in
    {| emitted := []; handlers := Some outcome;
       completion := InteractionHandlers.completion outcome |} in
  match resolve commandStore interaction with
  | Some command =>
      match autocompleteRun command with
      | Some autocomplete =>
          match autocomplete interaction with
          | InteractionHandlers.Returns (InteractionHandlers.Fulfilled _) =>
              {| emitted := [CommandAutocompleteInteractionSuccess
                               (payload_of command interaction)];
                 handlers := None;
                 completion := InteractionHandlers.Fulfilled tt |}
          | InteractionHandlers.Returns (InteractionHandlers.Rejected err)
          | InteractionHandlers.Throws err =>
              {| emitted := [CommandAutocompleteInteractionError err
                               (payload_of command interaction)];
                 handlers := None;
                 completion := InteractionHandlers.Fulfilled tt |}
          end
      | None => fallback
      end
  | None => fallback
  end.

End Autocomplete.

Arguments AutocompleteInteraction : clear implicits.
Arguments Command : clear implicits.
Arguments Payload : clear implicits.
Arguments Event : clear implicits.
Arguments Outcome : clear implicits.

End Listeners.

(** ** Sample inputs *)

(** Concrete resolvers, streams and handlers, on which the definitions
    above are run in the examples further down. *)
Module Samples.

Definition digit (c : Ascii.ascii) : option nat :=
  let n := Ascii.nat_of_ascii c in
  if bool_decide (48 ≤ n ≤ 57) then Some (n - 48) else None.

Fixpoint digits (s : string) (acc : nat) : option nat :=
  match s with
  | EmptyString => Some acc
  | String c rest =>
      match digit c with
      | Some d => digits rest (10 * acc + d)
      | None => None
      end
  end.

(** A resolver in the manner of the core [integer] argument: decimal
    numerals are accepted, anything else is refused. *)
Definition integer : Argument.IArgument nat unit unit unit unit :=
  {| Argument.name := "integer";
     Argument.run := λ parameter _,
       match parameter with
       | EmptyString =>
           Err {| identifier := "integerError";
                  error_message := "The argument did not resolve to an integer." |}
       | _ =>
           match digits parameter 0 with
           | Some n => Ok n
           | None =>
               Err {| identifier := "integerError";
                      error_message := "The argument did not resolve to an integer." |}
           end
       end |}.

Definition integer_error : UserError :=
  {| identifier := "integerError";
     error_message := "The argument did not resolve to an integer." |}.

Definition registry : gmap string (Argument.IArgument nat unit unit unit unit) :=
  {[ "integer" := integer ]}.

Definition words (l : list string) : list Lexure.WordParameter :=
  match l with
  | [] => []
  | w :: rest => Lexure.mkParameter w EmptyString
                 :: map (λ v, Lexure.mkParameter v " ") rest
  end.

(** The facade of a command run on the given words, after [start()]. *)
Definition facade (l : list string) : Args.MessageArgs unit unit unit :=
  Args.start
    {| Args.message := tt; Args.command := tt; Args.commandContext := tt;
       Args.parser := Lexure.fresh (words l); Args.states := [] |}.

Definition by_name (n : string) : Args.ArgsOptions nat unit unit unit unit :=
  {| Args.type := Args.ByName n; Args.options_settings := tt |}.

Definition repeat_by_name (n : string) (times : option nat)
  : Args.RepeatArgsOptions nat unit unit unit unit :=
  {| Args.args_options := by_name n; Args.times := times |}.

(** A button interaction and three button handlers: one whose parse
    step throws, one that keeps the inherited parse step and whose run
    step throws while it is called, and one that keeps the inherited
    parse step and whose run step returns. *)
Definition button : InteractionHandlers.Interaction :=
  {| InteractionHandlers.isButton := true;
     InteractionHandlers.isSelectMenu := false;
     InteractionHandlers.isMessageComponent := true |}.

Definition thrower : InteractionHandlers.InteractionHandler unit string :=
  {| InteractionHandlers.name := "thrower";
     InteractionHandlers.interactionHandlerType := InteractionHandlers.Button;
     InteractionHandlers.parse := λ _, InteractionHandlers.Throws "parse failed";
     InteractionHandlers.run := λ _ _,
       InteractionHandlers.Returns (InteractionHandlers.Fulfilled InteractionHandlers.undefined) |}.

Definition crasher : InteractionHandlers.InteractionHandler unit string :=
  {| InteractionHandlers.name := "crasher";
     InteractionHandlers.interactionHandlerType := InteractionHandlers.Button;
     InteractionHandlers.parse := InteractionHandlers.InteractionHandler_parse;
     InteractionHandlers.run := λ _ _, InteractionHandlers.Throws "run failed" |}.

Definition claimer : InteractionHandlers.InteractionHandler unit string :=
  {| InteractionHandlers.name := "claimer";
     InteractionHandlers.interactionHandlerType := InteractionHandlers.Button;
     InteractionHandlers.parse := InteractionHandlers.InteractionHandler_parse;
     InteractionHandlers.run := λ _ _,
       InteractionHandlers.Returns (InteractionHandlers.Fulfilled InteractionHandlers.undefined) |}.

(** [claimer] with another run step. *)
Definition claimer_running
    (run_step : InteractionHandlers.Interaction → InteractionHandlers.Unknown unit →
                InteractionHandlers.Completion string (InteractionHandlers.Unknown unit))
  : InteractionHandlers.InteractionHandler unit string :=
  {| InteractionHandlers.name := "claimer";
     InteractionHandlers.interactionHandlerType := InteractionHandlers.Button;
     InteractionHandlers.parse := InteractionHandlers.InteractionHandler_parse;
     InteractionHandlers.run := run_step |}.



(** A resolver that accepts every text, with its length. *)
Definition size : Argument.IArgument nat unit unit unit unit :=
  {| Argument.name := "size";
     Argument.run := λ parameter _, Ok (String.length parameter) |}.

Definition inline (argument : Argument.IArgument nat unit unit unit unit)
  : Args.ArgsOptions nat unit unit unit unit :=
  {| Args.type := Args.Inline argument; Args.options_settings := tt |}.

(** The callback that makes of a text what [integer] makes of it. *)
Definition as_integer (text : string) : option nat :=
  match Argument.run integer text (Args.context (facade []) (by_name "integer")) with
  | Ok n => Some n
  | Err _ => None
  end.

(** An interaction that is no component, as an autocomplete interaction
    is, and two commands: one whose [autocompleteRun] throws, one
    without [autocompleteRun]. *)
Definition plain : InteractionHandlers.Interaction :=
  {| InteractionHandlers.isButton := false;
     InteractionHandlers.isSelectMenu := false;
     InteractionHandlers.isMessageComponent := false |}.

Definition completing : Listeners.AutocompleteInteraction :=
  {| Listeners.commandId := "1001";
     Listeners.commandName := "ping";
     Listeners.base := plain |}.

Definition failing_command : Listeners.Command string :=
  {| Listeners.name := "ping";
     Listeners.autocompleteRun :=
       Some (λ _, InteractionHandlers.Throws "autocomplete failed") |}.


(** Channels are their own interactions here. *)
Definition in_channel (kind : Preconditions.ChannelType) : Preconditions.Channel :=
  Preconditions.mkChannel kind.

Definition message_in (kind : Preconditions.ChannelType) : Preconditions.Message :=
  Preconditions.mkMessage (in_channel kind) None.

End Samples.

(** * Properties *)

(** ** The token stream *)

Section LexureFacts.
Import Lexure.

Lemma set_state_state (s : ArgumentStream) : set_state s (state s) = s.
Proof. by destruct s. Qed.

Lemma state_eta (st : State) :
  {| used := used st; position := position st |} = st.
Proof. by destruct st. Qed.

Lemma singleParse_ordered {T E} (predicate : string -> Result T E) s :
  ordered (singleParse predicate s).2 = ordered s.
Proof.
  unfold singleParse. destruct (finished s); [done|].
  destruct (ordered s !! next_position s) as [p|]; [|done].
  by destruct (predicate (value p)).
Qed.

Lemma many_ordered s : ordered (many s).2 = ordered s.
Proof. unfold many. by destruct (finished s). Qed.

Lemma restore_save_after s s' :
  ordered s' = ordered s → restore (save s) s' = s.
Proof. destruct s, s'; simpl; intros ->. done. Qed.

(** The skipping loop never runs out of its fuel: where it stops, the
    index is unused. *)
Lemma skip_used_fresh_aux fuel (u : gset nat) pos :
  size (filter (λ i, pos ≤ i) u) ≤ fuel → skip_used fuel u pos ∉ u.
Proof.
  revert pos. induction fuel as [|fuel IH]; intros pos Hsize; simpl.
  - intros Hin.
    assert (Hpos : pos ∈ filter (λ i, pos ≤ i) u) by (apply elem_of_filter; done).
    assert (Hempty : filter (λ i, pos ≤ i) u ≡ ∅)
      by (apply size_empty_inv; lia).
    rewrite Hempty in Hpos. set_solver.
  - case_bool_decide as Hin; [|done].
    apply IH.
    assert (Hsub : filter (λ i, S pos ≤ i) u ⊆ filter (λ i, pos ≤ i) u ∖ {[pos]}).
    { intros x. rewrite elem_of_difference, !elem_of_filter, elem_of_singleton.
      intros [Hle Hx]. repeat split; [lia|done|lia]. }
    apply subseteq_size in Hsub.
    rewrite size_difference in Hsub.
    2:{ intros x. rewrite elem_of_singleton, elem_of_filter. intros ->. done. }
    rewrite size_singleton in Hsub. lia.
Qed.

Lemma skip_used_fresh (u : gset nat) pos : skip_used (size u) u pos ∉ u.
Proof.
  apply skip_used_fresh_aux, subseteq_size.
  intros x. rewrite elem_of_filter. tauto.
Qed.

Lemma skip_used_ge fuel (u : gset nat) pos : pos ≤ skip_used fuel u pos.
Proof.
  revert pos. induction fuel as [|fuel IH]; intros pos; simpl; [lia|].
  case_bool_decide; [|lia]. specialize (IH (S pos)). lia.
Qed.

Lemma skip_used_stay fuel (u : gset nat) pos :
  pos ∉ u → skip_used fuel u pos = pos.
Proof. intros Hpos. destruct fuel; simpl; [done|]. by rewrite bool_decide_false. Qed.

(** On a consistent stream the position is the next parameter. *)
Lemma consistent_next_position s :
  consistent s → next_position s = position (state s).
Proof.
  intros [Hused _]. unfold next_position. apply skip_used_stay.
  rewrite Hused, elem_of_set_seq. lia.
Qed.

Lemma consistent_finished s :
  consistent s →
  finished s = bool_decide (position (state s) = length (ordered s)).
Proof.
  intros [Hused _]. unfold finished. by rewrite Hused, size_set_seq.
Qed.

Lemma next_parameter_consistent s :
  consistent s → finished s = false → is_Some (next_parameter s).
Proof.
  intros Hc Hf. unfold next_parameter. rewrite Hf.
  rewrite (consistent_next_position _ Hc).
  rewrite (consistent_finished _ Hc) in Hf. apply bool_decide_eq_false in Hf.
  destruct Hc as [_ Hle]. apply lookup_lt_is_Some. lia.
Qed.


(** [singleParse] on a consistent stream, and what it leaves behind. *)
Lemma singleParse_consistent {T E} (predicate : string -> Result T E) s p :
  consistent s →
  ordered s !! position (state s) = Some p →
  singleParse predicate s =
    match predicate (value p) with
    | Ok v => (Ok v, advance s)
    | Err e => (Err (Some e), s)
    end.
Proof.
  intros Hc Hp. unfold singleParse.
  rewrite (consistent_finished _ Hc), (consistent_next_position _ Hc), Hp.
  apply lookup_lt_Some in Hp.
  rewrite bool_decide_false by lia.
  destruct (predicate (value p)) as [v|e].
  - unfold advance. destruct Hc as [-> _].
    by rewrite set_seq_S_end_union_L.
  - by rewrite state_eta, set_state_state.
Qed.

Lemma advance_consistent s p :
  consistent s → ordered s !! position (state s) = Some p → consistent (advance s).
Proof.
  intros [_ Hle] Hp. apply lookup_lt_Some in Hp.
  split; simpl; [done|lia].
Qed.

Lemma fresh_consistent parameters : consistent (fresh parameters).
Proof. split; simpl; [done|lia]. Qed.

(** Soundness is kept by every member, and a sound stream that is not
    finished has its next parameter: the spare branch of [singleParse]
    is never taken. *)
Lemma sound_unfinished s : sound s → finished s = false → consistent s.
Proof. intros [Hc|Hf] Hnf; [done|congruence]. Qed.

Lemma next_parameter_sound s :
  sound s → finished s = false → is_Some (next_parameter s).
Proof. intros Hs Hf. apply next_parameter_consistent; [|done]. by apply sound_unfinished. Qed.

Lemma singleParse_sound {T E} (predicate : string -> Result T E) s :
  sound s → sound (singleParse predicate s).2.
Proof.
  intros Hs. destruct (finished s) eqn:Hf.
  - unfold singleParse. by rewrite Hf.
  - pose proof (sound_unfinished _ Hs Hf) as Hc.
    destruct (next_parameter_consistent _ Hc Hf) as [p Hp].
    unfold next_parameter in Hp.
    rewrite Hf, (consistent_next_position _ Hc) in Hp.
    rewrite (singleParse_consistent _ _ _ Hc Hp).
    destruct (predicate (value p)); simpl; [|done].
    left. by eapply advance_consistent.
Qed.

Lemma many_sound s : sound s → sound (many s).2.
Proof.
  intros Hs. unfold many. destruct (finished s) eqn:Hf; [done|].
  pose proof (sound_unfinished _ Hs Hf) as [Hused Hle].
  right. unfold finished; simpl. apply bool_decide_eq_true.
  assert (Hall : used (state s)
                 ∪ list_to_set (filter (λ i, i ∉ used (state s))
                     (seq (position (state s))
                          (length (ordered s) - position (state s))))
                 = set_seq 0 (length (ordered s))).
  { apply set_eq. intros x.
    rewrite elem_of_union, elem_of_list_to_set, list_elem_of_filter, elem_of_seq.
    rewrite Hused, !elem_of_set_seq. split.
    - intros [Hx|[_ Hx]]; lia.
    - intros Hx. destruct (decide (x < position (state s))); [left; lia|].
      right. split; [|lia]. lia. }
  by rewrite Hall, size_set_seq.
Qed.

Lemma reset_sound s : sound (reset s).
Proof. left. split; simpl; [done|lia]. Qed.

(** [single] and [singleMap] are [singleParse] without the error. *)
Lemma single_ordered s : ordered (single s).2 = ordered s.
Proof.
  unfold single. destruct (finished s); [done|].
  by destruct (ordered s !! next_position s).
Qed.

Lemma singleMap_ordered {V} (predicate : string -> option V) s :
  ordered (singleMap predicate s).2 = ordered s.
Proof.
  unfold singleMap. destruct (finished s); [done|].
  destruct (ordered s !! next_position s) as [p|]; [|done].
  by destruct (predicate (value p)).
Qed.

Lemma single_consistent s p :
  consistent s →
  ordered s !! position (state s) = Some p →
  single s = (Some (value p), advance s).
Proof.
  intros Hc Hp. unfold single.
  rewrite (consistent_finished _ Hc), (consistent_next_position _ Hc), Hp.
  apply lookup_lt_Some in Hp. rewrite bool_decide_false by lia.
  unfold advance. destruct Hc as [-> _]. by rewrite set_seq_S_end_union_L.
Qed.

Lemma singleMap_consistent {V} (predicate : string -> option V) s p :
  consistent s →
  ordered s !! position (state s) = Some p →
  singleMap predicate s =
    match predicate (value p) with
    | Some v => (Some v, advance s)
    | None => (None, s)
    end.
Proof.
  intros Hc Hp. unfold singleMap.
  rewrite (consistent_finished _ Hc), (consistent_next_position _ Hc), Hp.
  apply lookup_lt_Some in Hp. rewrite bool_decide_false by lia.
  destruct (predicate (value p)) as [v|].
  - unfold advance. destruct Hc as [-> _]. by rewrite set_seq_S_end_union_L.
  - by rewrite state_eta, set_state_state.
Qed.

Lemma consistent_lookup s :
  consistent s → finished s = false →
  ∃ p, ordered s !! position (state s) = Some p.
Proof.
  intros Hc Hf. destruct (next_parameter_consistent _ Hc Hf) as [p Hp].
  unfold next_parameter in Hp.
  rewrite Hf, (consistent_next_position _ Hc) in Hp. by exists p.
Qed.

Lemma single_sound s : sound s → sound (single s).2.
Proof.
  intros Hs. destruct (finished s) eqn:Hf.
  - unfold single. by rewrite Hf.
  - pose proof (sound_unfinished _ Hs Hf) as Hc.
    destruct (consistent_lookup _ Hc Hf) as [p Hp].
    rewrite (single_consistent _ _ Hc Hp). left. by eapply advance_consistent.
Qed.

Lemma singleMap_sound {V} (predicate : string -> option V) s :
  sound s → sound (singleMap predicate s).2.
Proof.
  intros Hs. destruct (finished s) eqn:Hf.
  - unfold singleMap. by rewrite Hf.
  - pose proof (sound_unfinished _ Hs Hf) as Hc.
    destruct (consistent_lookup _ Hc Hf) as [p Hp].
    rewrite (singleMap_consistent _ _ _ Hc Hp).
    destruct (predicate (value p)); simpl; [|done].
    left. by eapply advance_consistent.
Qed.

(** [many] on a consistent stream: everything from the position on, in
    order, and a finished stream. *)
Lemma filter_all {A} (P : A → Prop) `{!∀ x, Decision (P x)} (l : list A) :
  Forall P l → filter P l = l.
Proof.
  induction 1 as [|x l Hx _ IH]; [done|].
  rewrite filter_cons_True by done. by rewrite IH.
Qed.

Lemma omap_lookup_seq {A} (l : list A) pos k :
  pos + k ≤ length l →
  omap (λ i, l !! i) (seq pos k) = take k (drop pos l).
Proof.
  revert pos. induction k as [|k IH]; intros pos Hle; simpl; [done|].
  destruct (lookup_lt_is_Some_2 l pos) as [x Hx]; [lia|].
  rewrite Hx, (drop_S _ _ _ Hx). simpl. f_equal. apply IH. lia.
Qed.

Lemma many_consistent s :
  consistent s → finished s = false →
  many s
  = (Some (drop (position (state s)) (ordered s)),
     set_state s {| used := set_seq 0 (length (ordered s));
                    position := position (state s) |}).
Proof.
  intros Hc Hf. pose proof Hc as [Hused Hle]. unfold many. rewrite Hf.
  rewrite (consistent_finished _ Hc) in Hf. apply bool_decide_eq_false in Hf.
  rewrite filter_all.
  2:{ apply Forall_seq. intros j Hj. rewrite Hused, elem_of_set_seq. lia. }
  rewrite omap_lookup_seq by lia.
  rewrite take_ge by (rewrite length_drop; lia).
  rewrite list_to_set_seq, Hused.
  replace (length (ordered s)) with
    (position (state s) + (length (ordered s) - position (state s))) at 2 by lia.
  rewrite set_seq_add_L. f_equal.
  destruct (drop (position (state s)) (ordered s)) eqn:Hd; [|done].
  apply drop_nil_inv in Hd. lia.
Qed.

End LexureFacts.

(** ** The argument facade *)

Section ArgsFacts.
Import Args.

Context {T Message MessageCommand CommandContext Settings : Type}.

Abbreviation Facade := (MessageArgs Message MessageCommand CommandContext).
Abbreviation Resolver :=
  (Argument.IArgument T Message MessageCommand CommandContext Settings).
Abbreviation Options :=
  (ArgsOptions T Message MessageCommand CommandContext Settings).
Abbreviation RepeatOptions :=
  (RepeatArgsOptions T Message MessageCommand CommandContext Settings).

Variable arguments : gmap string Resolver.

(** *** Frame: an extraction touches nothing but the cursor *)

Lemma only_cursor_refl (a : Facade) : only_cursor a a.
Proof.
  exists (Lexure.state (parser a)). destruct a as [m c cc p sts]; simpl.
  unfold set_parser; simpl. by rewrite set_state_state.
Qed.

Lemma only_cursor_trans (a b c : Facade) :
  only_cursor a b → only_cursor b c → only_cursor a c.
Proof. intros [st1 ->] [st2 ->]. by exists st2. Qed.

Lemma set_parser_only_cursor (a : Facade) p :
  Lexure.ordered p = Lexure.ordered (parser a) → only_cursor a (set_parser a p).
Proof.
  intros Hp. exists (Lexure.state p). destruct p as [o st]; simpl in *.
  unfold Lexure.set_state. by rewrite <- Hp.
Qed.

Lemma singleParse_only_cursor {V E} (predicate : string -> Result V E) (a : Facade) :
  only_cursor a (set_parser a (Lexure.singleParse predicate (parser a)).2).
Proof. apply set_parser_only_cursor, singleParse_ordered. Qed.

Lemma pickResult_only_cursor options (this : Facade) :
  only_cursor this (pickResult arguments options this).2.
Proof.
  unfold pickResult.
  destruct (resolveArgument arguments (type options)) as [argument|];
    [|apply only_cursor_refl].
  pose proof (singleParse_only_cursor
                (λ arg, Argument.run argument arg (context this options)) this) as H.
  destruct (Lexure.singleParse _ (parser this)) as [[v|[e|]] p]; exact H.
Qed.

Lemma restResult_only_cursor options (this : Facade) :
  only_cursor this (restResult arguments options this).2.
Proof.
  unfold restResult.
  destruct (resolveArgument arguments (type options)) as [argument|];
    [|apply only_cursor_refl].
  destruct (Lexure.finished (parser this)); [apply only_cursor_refl|].
  pose proof (many_ordered (parser this)) as Hm.
  destruct (Lexure.many (parser this)) as [parameters p]; simpl in *.
  apply set_parser_only_cursor.
  by destruct (Argument.run argument _ _); simpl.
Qed.

Lemma repeat_loop_only_cursor fuel (argument : Resolver) (options : Options)
    times i output (this : Facade) :
  only_cursor this (repeat_loop fuel argument options times i output this).2.
Proof.
  revert i output this.
  induction fuel as [|fuel IH]; intros i output this; simpl;
    [apply only_cursor_refl|].
  destruct (below i times); [|apply only_cursor_refl].
  pose proof (singleParse_only_cursor
                (λ arg, Argument.run argument arg (context this options)) this) as H.
  destruct (Lexure.singleParse _ (parser this)) as [[v|[e|]] p]; simpl in *.
  - eapply only_cursor_trans; [exact H|apply IH].
  - by destruct output.
  - done.
Qed.


(** *** Checkpoints *)

Lemma pop_nil {A} : pop (@nil A) = None.
Proof. done. Qed.

Lemma pop_snoc {A} (l : list A) x : pop (l ++ [x]) = Some (x, l).
Proof. unfold pop. by rewrite reverse_snoc, reverse_involutive. Qed.

(** Whatever moved the cursor after a [save], [restore] undoes it. *)
Lemma restore_after_save (this b : Facade) :
  only_cursor (save this) b → restore b = this.
Proof.
  intros [st ->]. unfold restore, save; simpl. rewrite pop_snoc.
  destruct this as [m c cc [o s] sts]; reflexivity.
Qed.







(** *** The loop of [repeatResult] *)

Lemma singleParse_Ok_progress {V E} (predicate : string -> Result V E) s v s' :
  Lexure.singleParse predicate s = (Ok v, s') →
  Lexure.ordered s' = Lexure.ordered s
  ∧ Lexure.position (Lexure.state s) < Lexure.position (Lexure.state s')
  ∧ Lexure.position (Lexure.state s') ≤ length (Lexure.ordered s).
Proof.
  unfold Lexure.singleParse. destruct (Lexure.finished s); [done|].
  destruct (Lexure.ordered s !! Lexure.next_position s) as [p|] eqn:Hp; [|done].
  destruct (predicate (Lexure.value p)); [|done].
  intros [= _ <-]; simpl. apply lookup_lt_Some in Hp.
  pose proof (skip_used_ge (size (Lexure.used (Lexure.state s)))
                (Lexure.used (Lexure.state s))
                (Lexure.position (Lexure.state s))) as Hge.
  unfold Lexure.next_position in *. split; [done|lia].
Qed.

(** Fuel: the loop ends by itself before the fuel of the model does,
    so any two sufficient amounts give the same run. *)
Lemma repeat_loop_fuel fuel1 fuel2 (argument : Resolver) (options : Options)
    times i output (this : Facade) :
  length (Lexure.ordered (parser this))
    - Lexure.position (Lexure.state (parser this)) < fuel1 →
  length (Lexure.ordered (parser this))
    - Lexure.position (Lexure.state (parser this)) < fuel2 →
  repeat_loop fuel1 argument options times i output this
  = repeat_loop fuel2 argument options times i output this.
Proof.
  revert fuel2 i output this.
  induction fuel1 as [|fuel1 IH]; intros fuel2 i output this H1 H2; [lia|].
  destruct fuel2 as [|fuel2]; [lia|]. simpl.
  destruct (below i times); [|done].
  destruct (Lexure.singleParse _ (parser this)) as [[v|[e|]] p] eqn:Hs; [|done..].
  apply singleParse_Ok_progress in Hs as (Ho & Hlt & Hle).
  apply IH; simpl; rewrite Ho; lia.
Qed.

Lemma repeat_loop_length fuel (argument : Resolver) (options : Options) N i output
    (this : Facade) vs :
  (repeat_loop fuel argument options (Some N) i output this).1 = Ok vs →
  length vs ≤ length output + (N - i).
Proof.
  revert i output this.
  induction fuel as [|fuel IH]; intros i output this; simpl.
  - intros [= <-]. lia.
  - case_bool_decide as Hi; simpl; [|intros [= <-]; lia].
    destruct (Lexure.singleParse _ (parser this)) as [[v|[e|]] p]; simpl.
    + intros Hr. apply IH in Hr. rewrite length_app in Hr. simpl in Hr. lia.
    + destruct output; simpl; [done|]. intros [= <-]. simpl. lia.
    + intros [= <-]. lia.
Qed.



Lemma room_below i n times : room i (S n) times → below i times = true.
Proof.
  destruct times as [N|]; simpl; [|done].
  intros H. apply bool_decide_eq_true. lia.
Qed.

Lemma room_S i n times : room i (S n) times → room (S i) n times.
Proof. destruct times as [N|]; simpl; [lia|done]. Qed.

(** After the accepted parameters [ps] comes [p], which the resolver
    rejects: the loop answers with what it has, be it stopped by the
    rejection or by the bound. *)
Lemma repeat_loop_stops fuel (argument : Resolver) (options : Options) times i
    output (this : Facade) ps p rest vs e :
  Lexure.consistent (parser this) →
  drop (Lexure.position (Lexure.state (parser this)))
       (Lexure.ordered (parser this)) = ps ++ p :: rest →
  accepted argument (context this options) ps vs →
  Argument.run argument (Lexure.value p) (context this options) = Err e →
  output ++ vs ≠ [] →
  room i (length ps) times →
  length ps < fuel →
  (repeat_loop fuel argument options times i output this).1 = Ok (output ++ vs).
Proof.
  intros Hc Hdrop Hacc Hfail.
  remember (context this options) as ctx eqn:Hctx.
  revert fuel i output this Hctx Hc Hdrop Hfail.
  induction Hacc as [|q v ps vs Hq Hacc IH];
    intros fuel i output this -> Hc Hdrop Hfail Hne Hroom Hfuel;
    (destruct fuel as [|fuel]; [simpl in Hfuel; lia|]); simpl.
  - rewrite app_nil_r in *.
    destruct (below i times); [|done].
    assert (Hp : Lexure.ordered (parser this)
                   !! Lexure.position (Lexure.state (parser this)) = Some p).
    { rewrite <- (Nat.add_0_r (Lexure.position _)), <- lookup_drop, Hdrop. done. }
    rewrite (singleParse_consistent _ _ _ Hc Hp), Hfail.
    by destruct output.
  - rewrite (room_below _ _ _ Hroom).
    assert (Hp : Lexure.ordered (parser this)
                   !! Lexure.position (Lexure.state (parser this)) = Some q).
    { rewrite <- (Nat.add_0_r (Lexure.position _)), <- lookup_drop, Hdrop. done. }
    rewrite (singleParse_consistent _ _ _ Hc Hp), Hq.
    rewrite (cons_middle v output vs), app_assoc.
    apply IH; simpl.
    + done.
    + by eapply advance_consistent.
    + rewrite <- Nat.add_1_r, <- drop_drop, Hdrop. done.
    + exact Hfail.
    + rewrite <- app_assoc. by destruct output.
    + by apply room_S.
    + simpl in Hfuel. lia.
Qed.


(** *** Well-formedness is kept by the facade *)

Lemma only_cursor_well_formed (a b : Facade) :
  only_cursor a b → Lexure.sound (parser b) → well_formed a → well_formed b.
Proof. intros [st ->] Hb [_ Hsts]. split; [done|]. exact Hsts. Qed.

Lemma pickResult_well_formed options (this : Facade) :
  well_formed this → well_formed (pickResult arguments options this).2.
Proof.
  intros Hwf. eapply only_cursor_well_formed;
    [apply pickResult_only_cursor| |done].
  unfold pickResult.
  destruct (resolveArgument arguments (type options)) as [argument|];
    [|apply Hwf].
  pose proof (singleParse_sound (λ arg, Argument.run argument arg (context this options))
                (parser this) (proj1 Hwf)) as H.
  by destruct (Lexure.singleParse _ (parser this)) as [[v|[e|]] p].
Qed.

Lemma restResult_well_formed options (this : Facade) :
  well_formed this → well_formed (restResult arguments options this).2.
Proof.
  intros Hwf. eapply only_cursor_well_formed;
    [apply restResult_only_cursor| |done].
  unfold restResult.
  destruct (resolveArgument arguments (type options)) as [argument|];
    [|apply Hwf].
  destruct (Lexure.finished (parser this)); [apply Hwf|].
  pose proof (many_sound (parser this) (proj1 Hwf)) as Hs.
  pose proof (many_ordered (parser this)) as Hm.
  destruct (Lexure.many (parser this)) as [parameters p]; simpl in *.
  destruct (Argument.run argument _ _); simpl; [done|].
  rewrite (restore_save_after _ _ Hm). apply Hwf.
Qed.

Lemma repeat_loop_well_formed fuel (argument : Resolver) (options : Options)
    times i output (this : Facade) :
  well_formed this →
  well_formed (repeat_loop fuel argument options times i output this).2.
Proof.
  revert i output this.
  induction fuel as [|fuel IH]; intros i output this Hwf; simpl; [done|].
  destruct (below i times); [|done].
  assert (Hnext : well_formed
            (set_parser this
               (Lexure.singleParse (λ arg, Argument.run argument arg (context this options))
                  (parser this)).2)).
  { eapply only_cursor_well_formed; [apply singleParse_only_cursor| |done].
    apply singleParse_sound, Hwf. }
  destruct (Lexure.singleParse _ (parser this)) as [[v|[e|]] p]; simpl in *.
  - by apply IH.
  - by destruct output.
  - done.
Qed.

Lemma repeatResult_well_formed options (this : Facade) :
  well_formed this → well_formed (repeatResult arguments options this).2.
Proof.
  intros Hwf. unfold repeatResult.
  destruct (resolveArgument arguments (type options)) as [argument|]; [|done].
  destruct (Lexure.finished (parser this)); [done|].
  by apply repeat_loop_well_formed.
Qed.

Lemma save_well_formed (this : Facade) : well_formed this → well_formed (save this).
Proof.
  intros [Hp Hsts]. split; [done|]. simpl.
  apply Forall_app. split; [done|]. apply Forall_singleton.
  unfold Lexure.save. by rewrite set_state_state.
Qed.

Lemma restore_well_formed (this : Facade) : well_formed this → well_formed (restore this).
Proof.
  intros [Hp Hsts]. unfold restore.
  destruct (pop (states this)) as [[st rest]|] eqn:Hpop; [|by split].
  assert (Hstates : states this = rest ++ [st]).
  { unfold pop in Hpop. destruct (reverse (states this)) as [|x r] eqn:Hr; [done|].
    injection Hpop as -> <-.
    by rewrite <- (reverse_involutive (states this)), Hr, reverse_cons. }
  rewrite Hstates in Hsts. apply Forall_app in Hsts as [Hrest Hst].
  rewrite Forall_singleton in Hst. split; simpl; [exact Hst|exact Hrest].
Qed.

Lemma start_well_formed (m : Message) (c : MessageCommand) (cc : CommandContext)
    parameters :
  well_formed (start (mkArgs m c cc (Lexure.fresh parameters) [])).
Proof. split; simpl; [apply reset_sound|done]. Qed.

(** The peek cases of [call] are [peekResult] and [peek]. *)
Lemma call_peek {R} options
    (k : Result T UserError → Extraction T Message MessageCommand CommandContext Settings R)
    (this : Facade) :
  call arguments (PeekThen options k) this
  = match peekResult arguments (PeekType options) this with
    | (Returned r, this') => call arguments (k r) this'
    | (Thrown e, this') => (Thrown e, this')
    end.
Proof.
  unfold peekResult; simpl.
  by destruct (pickResult arguments options (save this)).
Qed.

Lemma call_peek_with {R}
    (inner : Extraction T Message MessageCommand CommandContext Settings R)
    (k : R → Extraction T Message MessageCommand CommandContext Settings R)
    (this : Facade) :
  call arguments (PeekWithThen inner k) this
  = match peekResult arguments (PeekFunction inner) this with
    | (Returned r, this') => call arguments (k r) this'
    | (Thrown e, this') => (Thrown e, this')
    end.
Proof.
  unfold peekResult; simpl.
  by destruct (call arguments inner (save this)) as [[r|e] this'].
Qed.

Lemma call_peek_raw {R} options
    (k : T → Extraction T Message MessageCommand CommandContext Settings R)
    (this : Facade) :
  call arguments (PeekRawThen options k) this
  = match peek arguments (PeekType options) this with
    | (Returned v, this') => call arguments (k v) this'
    | (Thrown e, this') => (Thrown e, this')
    end.
Proof.
  unfold peek, peekResult; simpl.
  by destruct (pickResult arguments options (save this)) as [[v|e] this'].
Qed.

Lemma call_well_formed {R}
    (f : Extraction T Message MessageCommand CommandContext Settings R) (this : Facade) :
  well_formed this → well_formed (call arguments f this).2.
Proof.
  revert this.
  induction f as [r|e|options k IH|options k IH|options k IH|options k IH
                 |inner IHinner k IH|options k IH|options k IH|options k IH
                 |options k IH];
    intros this Hwf; simpl.
  - done.
  - done.
  - pose proof (pickResult_well_formed options this Hwf) as H.
    destruct (pickResult arguments options this) as [r this']. by apply IH.
  - pose proof (restResult_well_formed options this Hwf) as H.
    destruct (restResult arguments options this) as [r this']. by apply IH.
  - pose proof (repeatResult_well_formed options this Hwf) as H.
    destruct (repeatResult arguments options this) as [r this']. by apply IH.
  - pose proof (pickResult_well_formed options (save this)
                  (save_well_formed _ Hwf)) as H.
    destruct (pickResult arguments options (save this)) as [r this'].
    by apply IH, restore_well_formed.
  - pose proof (IHinner (save this) (save_well_formed _ Hwf)) as H.
    destruct (call arguments inner (save this)) as [[r|e] this']; simpl in *.
    + by apply IH, restore_well_formed.
    + done.
  - unfold pick. pose proof (pickResult_well_formed options this Hwf) as H.
    destruct (pickResult arguments options this) as [[v|e] this']; simpl in *;
      [by apply IH|done].
  - unfold rest. pose proof (restResult_well_formed options this Hwf) as H.
    destruct (restResult arguments options this) as [[v|e] this']; simpl in *;
      [by apply IH|done].
  - unfold repeat. pose proof (repeatResult_well_formed options this Hwf) as H.
    destruct (repeatResult arguments options this) as [[v|e] this']; simpl in *;
      [by apply IH|done].
  - pose proof (pickResult_well_formed options (save this)
                  (save_well_formed _ Hwf)) as H.
    destruct (pickResult arguments options (save this)) as [[v|e] this'];
      simpl in *; [by apply IH, restore_well_formed|by apply restore_well_formed].
Qed.

(** The answer of [repeatResult] does not depend on the fuel of its
    loop, as long as there is one unit more than ordered parameters. *)
Lemma repeatResult_fuel fuel (options : RepeatOptions) (this : Facade) argument :
  resolveArgument arguments (type options) = Some argument →
  Lexure.finished (parser this) = false →
  length (Lexure.ordered (parser this)) < fuel →
  repeatResult arguments options this
  = repeat_loop fuel argument options (times options) 0 [] this.
Proof.
  intros Hres Hfin Hfuel. unfold repeatResult. rewrite Hres, Hfin.
  apply repeat_loop_fuel; lia.
Qed.

(** On a well-formed facade that is not finished, the next extraction
    finds its parameter at the position. *)
Lemma well_formed_unfinished (this : Facade) :
  well_formed this → finished this = false → Lexure.consistent (parser this).
Proof. intros [Hs _] Hf. by apply sound_unfinished. Qed.

(** *** The claims about the facade *)

(** [peekResult] by type always returns, and [peekResult] with a
    function returns what the function returns and throws what it
    throws. *)
Lemma peekResult_by_type options (this : Facade) :
  peekResult arguments (PeekType options) this
  = (Returned (pickResult arguments options (save this)).1, this).
Proof.
  unfold peekResult.
  pose proof (pickResult_only_cursor options (save this)) as H.
  destruct (pickResult arguments options (save this)) as [r this2]; simpl in *.
  by rewrite (restore_after_save _ _ H).
Qed.




(** C9. [restore] on an empty checkpoint stack changes nothing (and
    raises nothing: it is a total function of the facade); on a stack
    whose last pushed state is [st] it pops exactly that one state and
    installs it as the cursor, and [save] is what pushes last. *)
Theorem restore_pops_last_checkpoint
    (m : Message) (c : MessageCommand) (cc : CommandContext)
    (p : Lexure.ArgumentStream) :
  restore (mkArgs m c cc p []) = mkArgs m c cc p []
  ∧ (∀ rest st,
       restore (mkArgs m c cc p (rest ++ [st]))
       = mkArgs m c cc (Lexure.restore st p) rest)
  ∧ (∀ sts, save (mkArgs m c cc p sts)
            = mkArgs m c cc p (sts ++ [Lexure.state p])).
Proof.
  split; [done|]. split; [|done].
  intros rest st. unfold restore; simpl. by rewrite pop_snoc.
Qed.

(** C4. When [restResult] fails, the facade is back where it was before
    the attempt, so a [pickResult] that follows answers as if [rest]
    had never run. *)
Theorem restResult_failure_restores_cursor (options : Options) (this : Facade) e :
  (restResult arguments options this).1 = Err e →
  (restResult arguments options this).2 = this
  ∧ ∀ options', pickResult arguments options' (restResult arguments options this).2
                = pickResult arguments options' this.
Proof.
  intros Hfail.
  assert (H : (restResult arguments options this).2 = this).
  { revert Hfail. unfold restResult.
    destruct (resolveArgument arguments (type options)) as [argument|]; [|done].
    destruct (Lexure.finished (parser this)); [done|].
    pose proof (many_ordered (parser this)) as Hm.
    destruct (Lexure.many (parser this)) as [parameters p]; simpl in *.
    destruct (Argument.run argument _ _); [done|]. intros _. simpl.
    rewrite (restore_save_after _ _ Hm). by destruct this. }
  split; [done|]. intros options'. by rewrite H.
Qed.

(** C6. On an exhausted stream [pickResult], for a type that resolves,
    answers with the missing-arguments error and leaves the facade as
    it is.  The identifier is not the one of an unknown type, and the
    resolver has no part in the answer: any resolver gives the same. *)
Theorem pickResult_exhausted (options : Options) (this : Facade) argument :
  finished this = true →
  resolveArgument arguments (type options) = Some argument →
  ∃ e, pickResult arguments options this = (Err e, this)
     ∧ identifier e = Identifiers.ArgsMissing
     ∧ identifier e ≠ Identifiers.ArgsUnavailable
     ∧ (∀ t : ArgType T Message MessageCommand CommandContext Settings,
          unavailableArgument (V := T) t ≠ Err e)
     ∧ (∀ argument' : Resolver,
          pickResult arguments
            {| type := Inline argument';
               options_settings := options_settings options |} this
          = (Err e, this)).
Proof.
  intros Hfin Hres. unfold finished in Hfin.
  exists {| identifier := Identifiers.ArgsMissing;
            error_message := "There are no more arguments." |}.
  split; [|split; [done|split; [done|split]]].
  - unfold pickResult, Lexure.singleParse. rewrite Hres, Hfin.
    unfold missingArguments. f_equal. by destruct this.
  - intros t. unfold unavailableArgument. by intros [= H _].
  - intros argument'. unfold pickResult, Lexure.singleParse; simpl.
    rewrite Hfin. unfold missingArguments. f_equal. by destruct this.
Qed.

(** C3. On a stream that still has a parameter, when the very first
    resolver attempt of [repeatResult] fails (nothing collected yet),
    the answer is that resolver's error, not an empty success. *)
Theorem repeatResult_first_attempt_fails (options : RepeatOptions) (this : Facade)
    argument p e :
  resolveArgument arguments (type options) = Some argument →
  times options ≠ Some 0 →
  Lexure.next_parameter (parser this) = Some p →
  Argument.run argument (Lexure.value p) (context this options) = Err e →
  (repeatResult arguments options this).1 = Err e.
Proof.
  intros Hres Htimes Hnext Hfail. unfold repeatResult. rewrite Hres.
  unfold Lexure.next_parameter in Hnext.
  destruct (Lexure.finished (parser this)) eqn:Hfin; [done|]. simpl.
  assert (Hb : below 0 (times options) = true).
  { destruct (times options) as [[|n]|]; [done| |done].
    apply bool_decide_eq_true. lia. }
  rewrite Hb. unfold Lexure.singleParse. by rewrite Hfin, Hnext, Hfail.
Qed.

(** C5. With [times = N], [repeatResult] never answers with more than
    [N] values; and when the resolver accepted at least one parameter
    and fewer than [N], and rejects the next one, the answer is the
    success holding exactly the accepted values, fewer than [N]. *)
Theorem repeatResult_times (options : RepeatOptions) (this : Facade) N :
  times options = Some N →
  (∀ vs, (repeatResult arguments options this).1 = Ok vs → length vs ≤ N)
  ∧ (∀ argument ps p rest vs e,
       resolveArgument arguments (type options) = Some argument →
       Lexure.consistent (parser this) →
       drop (Lexure.position (Lexure.state (parser this)))
            (Lexure.ordered (parser this)) = ps ++ p :: rest →
       accepted argument (context this options) ps vs →
       ps ≠ [] →
       length ps < N →
       Argument.run argument (Lexure.value p) (context this options) = Err e →
       (repeatResult arguments options this).1 = Ok vs
       ∧ 0 < length vs < N).
Proof.
  intros Htimes. split.
  - intros vs. unfold repeatResult.
    destruct (resolveArgument arguments (type options)) as [argument|]; [|done].
    destruct (Lexure.finished (parser this)); [done|].
    rewrite Htimes. intros Hr. apply repeat_loop_length in Hr. simpl in Hr. lia.
  - intros argument ps p rest vs e Hres Hc Hdrop Hacc Hps HN Hfail.
    pose proof (Forall2_length _ _ _ Hacc) as Hlen.
    split.
    + unfold repeatResult. rewrite Hres.
      rewrite (consistent_finished _ Hc).
      assert (Hl : length (ps ++ p :: rest)
                   = length (Lexure.ordered (parser this))
                     - Lexure.position (Lexure.state (parser this)))
        by (by rewrite <- Hdrop, length_drop).
      rewrite length_app in Hl. simpl in Hl.
      rewrite bool_decide_false by lia.
      rewrite Htimes.
      apply (repeat_loop_stops _ _ _ _ _ [] _ ps p rest vs e); try done.
      * simpl. intros ->. destruct ps; [done|]. simpl in Hlen. lia.
      * simpl. lia.
      * lia.
    + destruct ps; [done|]. simpl in *. lia.
Qed.

(** *** Further properties of the facade *)

Lemma set_parser_parser (this : Facade) : set_parser this (parser this) = this.
Proof. by destruct this. Qed.


Lemma pickResult_err_unchanged options (this : Facade) e :
  well_formed this →
  (pickResult arguments options this).1 = Err e →
  (pickResult arguments options this).2 = this.
Proof.
  intros [Hs _]. unfold pickResult.
  destruct (resolveArgument arguments (type options)) as [argument|]; [|done].
  destruct (Lexure.finished (parser this)) eqn:Hf.
  - unfold Lexure.singleParse. rewrite Hf. simpl. intros _. apply set_parser_parser.
  - pose proof (sound_unfinished _ Hs Hf) as Hc.
    destruct (consistent_lookup _ Hc Hf) as [p Hp].
    rewrite (singleParse_consistent _ _ _ Hc Hp).
    destruct (Argument.run argument _ _); simpl; [done|].
    intros _. apply set_parser_parser.
Qed.

Lemma restResult_err_unchanged options (this : Facade) e :
  (restResult arguments options this).1 = Err e →
  (restResult arguments options this).2 = this.
Proof.
  unfold restResult.
  destruct (resolveArgument arguments (type options)) as [argument|]; [|done].
  destruct (Lexure.finished (parser this)); [done|].
  pose proof (many_ordered (parser this)) as Hm.
  destruct (Lexure.many (parser this)) as [parameters p]; simpl in *.
  destruct (Argument.run argument _ _); [done|]. intros _. simpl.
  rewrite (restore_save_after _ _ Hm). apply set_parser_parser.
Qed.

(** Once a value is collected the loop can only succeed, with that
    value in front. *)
Lemma repeat_loop_collected fuel (argument : Resolver) (options : Options)
    times i output (this : Facade) :
  output ≠ [] →
  ∃ vs, (repeat_loop fuel argument options times i output this).1
        = Ok (output ++ vs).
Proof.
  revert i output this.
  induction fuel as [|fuel IH]; intros i output this Hne; simpl.
  - exists []. by rewrite app_nil_r.
  - destruct (below i times); [|exists []; by rewrite app_nil_r].
    destruct (Lexure.singleParse _ (parser this)) as [[v|[e|]] p]; simpl.
    + destruct (IH (S i) (output ++ [v]) (set_parser this p)) as [vs Hvs].
      { by destruct output. }
      exists (v :: vs). by rewrite Hvs, <- app_assoc.
    + destruct output; [done|]. exists []. by rewrite app_nil_r.
    + exists []. by rewrite app_nil_r.
Qed.

Lemma repeatResult_err_unchanged (options : RepeatOptions) (this : Facade) e :
  well_formed this →
  (repeatResult arguments options this).1 = Err e →
  (repeatResult arguments options this).2 = this.
Proof.
  intros [Hs _]. unfold repeatResult.
  destruct (resolveArgument arguments (type options)) as [argument|]; [|done].
  destruct (Lexure.finished (parser this)) eqn:Hf; [done|].
  pose proof (sound_unfinished _ Hs Hf) as Hc.
  destruct (consistent_lookup _ Hc Hf) as [p Hp]. simpl.
  destruct (below 0 (times options)); [|done].
  rewrite (singleParse_consistent _ _ _ Hc Hp).
  destruct (Argument.run argument _ _) as [v|e']; simpl.
  - destruct (repeat_loop_collected (length (Lexure.ordered (parser this)))
                argument options (times options) 1 [v]
                (set_parser this (Lexure.advance (parser this)))) as [vs Hvs];
      [done|].
    simpl in Hvs. by rewrite Hvs.
  - intros _. apply set_parser_parser.
Qed.

(** X1. A type that does not resolve fails the three extractions in the
    same way, with the identifier of an unknown type and before the
    stream is looked at: the facade is untouched, and the error wins
    over the one of an exhausted stream. *)
Theorem unknown_type_fails_first (options : Options) (this : Facade) times :
  resolveArgument arguments (type options) = None →
  pickResult arguments options this = (unavailableArgument (type options), this)
  ∧ restResult arguments options this = (unavailableArgument (type options), this)
  ∧ repeatResult arguments (mkRepeatOptions options times) this
    = (unavailableArgument (type options), this)
  ∧ ∀ e, unavailableArgument (V := T) (type options) = Err e →
         identifier e = Identifiers.ArgsUnavailable.
Proof.
  intros Hres. unfold pickResult, restResult, repeatResult; simpl.
  rewrite Hres. repeat split. by intros e [= <-].
Qed.

(** X2. A [pickResult] or a [repeatResult] that answers with an error
    has consumed nothing: on a well-formed facade the facade after the
    call is the facade before it. *)
Theorem failed_extraction_consumes_nothing
    (options : Options) (repeated : RepeatOptions) (this : Facade) :
  well_formed this →
  (∀ e, (pickResult arguments options this).1 = Err e →
        (pickResult arguments options this).2 = this)
  ∧ (∀ e, (repeatResult arguments repeated this).1 = Err e →
          (repeatResult arguments repeated this).2 = this).
Proof.
  intros Hwf. split; intros e He.
  - by eapply pickResult_err_unchanged.
  - by eapply repeatResult_err_unchanged.
Qed.

(** X3. A [pickResult] that succeeds has consumed exactly one parameter,
    the one at the position, and its value is what the resolved
    resolver made of that parameter's text. *)
Theorem pickResult_success_consumes_one (options : Options) (this : Facade) v :
  well_formed this →
  (pickResult arguments options this).1 = Ok v →
  (pickResult arguments options this).2
    = set_parser this (Lexure.advance (parser this))
  ∧ ∃ argument p,
      resolveArgument arguments (type options) = Some argument
      ∧ Lexure.ordered (parser this)
          !! Lexure.position (Lexure.state (parser this)) = Some p
      ∧ Argument.run argument (Lexure.value p) (context this options) = Ok v.
Proof.
  intros [Hs _]. unfold pickResult.
  destruct (resolveArgument arguments (type options)) as [argument|]; [|done].
  destruct (Lexure.finished (parser this)) eqn:Hf.
  - unfold Lexure.singleParse. by rewrite Hf.
  - pose proof (sound_unfinished _ Hs Hf) as Hc.
    destruct (consistent_lookup _ Hc Hf) as [p Hp].
    rewrite (singleParse_consistent _ _ _ Hc Hp).
    destruct (Argument.run argument _ _) as [v'|e'] eqn:Hrun; simpl; [|done].
    intros [= ->]. split; [done|]. by exists argument, p.
Qed.

(** X4. A [restResult] that succeeds was given the join of all the
    parameters from the position on, and leaves the stream finished. *)
Theorem restResult_success_takes_all (options : Options) (this : Facade) v :
  well_formed this →
  (restResult arguments options this).1 = Ok v →
  finished (restResult arguments options this).2 = true
  ∧ ∃ argument,
      resolveArgument arguments (type options) = Some argument
      ∧ Argument.run argument
          (Lexure.join (drop (Lexure.position (Lexure.state (parser this)))
                             (Lexure.ordered (parser this))))
          (context this options) = Ok v.
Proof.
  intros [Hs _]. unfold restResult.
  destruct (resolveArgument arguments (type options)) as [argument|]; [|done].
  destruct (Lexure.finished (parser this)) eqn:Hf; [done|].
  pose proof (sound_unfinished _ Hs Hf) as Hc.
  rewrite (many_consistent _ Hc Hf). simpl.
  destruct (Argument.run argument _ _) as [v'|e'] eqn:Hrun; simpl; [|done].
  intros [= ->]. split; [|by exists argument].
  unfold finished, Lexure.finished; simpl.
  apply bool_decide_eq_true. by rewrite size_set_seq.
Qed.

(** X5. On a well-formed facade [repeatResult] answers with an empty
    success only when [times] is zero: otherwise it is an error or at
    least one value. *)
Theorem repeatResult_empty_success (options : RepeatOptions) (this : Facade) :
  well_formed this →
  (repeatResult arguments options this).1 = Ok [] →
  times options = Some 0.
Proof.
  intros [Hs _]. unfold repeatResult.
  destruct (resolveArgument arguments (type options)) as [argument|]; [|done].
  destruct (Lexure.finished (parser this)) eqn:Hf; [done|].
  pose proof (sound_unfinished _ Hs Hf) as Hc.
  destruct (consistent_lookup _ Hc Hf) as [p Hp]. simpl.
  destruct (times options) as [[|n]|] eqn:Ht; [done| |]; simpl.
  all: rewrite (singleParse_consistent _ _ _ Hc Hp).
  all: destruct (Argument.run argument _ _) as [v|e']; simpl; [|done].
  all: match goal with
       | |- context [repeat_loop ?f ?a ?o ?t ?i ?out ?th] =>
           destruct (repeat_loop_collected f a o t i out th) as [vs Hvs]; [done|];
           simpl in Hvs; by rewrite Hvs
       end.
Qed.

(** The stream [k] parameters further on. *)
Lemma repeat_loop_takes fuel (argument : Resolver) (options : Options) times i
    output (this : Facade) ps remaining vs :
  Lexure.consistent (parser this) →
  drop (Lexure.position (Lexure.state (parser this)))
       (Lexure.ordered (parser this)) = ps ++ remaining →
  accepted argument (context this options) ps vs →
  room i (length ps) times →
  remaining = [] ∨ times = Some (i + length ps) →
  length ps < fuel →
  (repeat_loop fuel argument options times i output this).1 = Ok (output ++ vs)
  ∧ Lexure.state (parser (repeat_loop fuel argument options times i output this).2)
    = {| Lexure.used :=
           set_seq 0 (Lexure.position (Lexure.state (parser this)) + length ps);
         Lexure.position :=
           Lexure.position (Lexure.state (parser this)) + length ps |}.
Proof.
  intros Hc Hdrop Hacc.
  remember (context this options) as ctx eqn:Hctx.
  revert fuel i output this Hctx Hc Hdrop.
  induction Hacc as [|q v ps vs Hq Hacc IH];
    intros fuel i output this -> Hc Hdrop Hroom Hstop Hfuel;
    (destruct fuel as [|fuel]; [simpl in Hfuel; lia|]); simpl.
  - rewrite app_nil_r, Nat.add_0_r.
    assert (Hstate : Lexure.state (parser this)
              = {| Lexure.used := set_seq 0 (Lexure.position (Lexure.state (parser this)));
                   Lexure.position := Lexure.position (Lexure.state (parser this)) |}).
    { destruct Hc as [Hu _]. rewrite <- Hu. by rewrite state_eta. }
    destruct (below i times) eqn:Hb; [|done].
    destruct Hstop as [Hrem|Ht].
    + subst remaining. simpl in Hdrop. apply drop_nil_inv in Hdrop.
      unfold Lexure.singleParse. rewrite (consistent_finished _ Hc).
      destruct Hc as [_ Hle]. rewrite bool_decide_true by lia. done.
    + rewrite Ht in Hb. simpl in Hb. apply bool_decide_eq_true in Hb. lia.
  - rewrite (room_below _ _ _ Hroom).
    assert (Hp : Lexure.ordered (parser this)
                   !! Lexure.position (Lexure.state (parser this)) = Some q).
    { rewrite <- (Nat.add_0_r (Lexure.position _)), <- lookup_drop, Hdrop. done. }
    rewrite (singleParse_consistent _ _ _ Hc Hp), Hq.
    rewrite (cons_middle v output vs), app_assoc.
    rewrite <- !Nat.add_succ_comm.
    apply (IH fuel (S i) (output ++ [v])
             (set_parser this (Lexure.advance (parser this)))); simpl.
    + done.
    + by eapply advance_consistent.
    + rewrite <- Nat.add_1_r, <- drop_drop, Hdrop. done.
    + by apply room_S.
    + destruct Hstop as [Hrem|Ht]; [by left|right]. rewrite Ht. f_equal. simpl. lia.
    + simpl in Hfuel. lia.
Qed.

(** X6. When the resolver accepts the parameters from the position on,
    [repeatResult] collects them in order and consumes exactly them: all
    that is left when nothing bounds it, the first [times] otherwise,
    the next parameter being left where it is. *)
Theorem repeatResult_collects (options : RepeatOptions) (this : Facade)
    argument ps remaining vs :
  resolveArgument arguments (type options) = Some argument →
  Lexure.consistent (parser this) →
  drop (Lexure.position (Lexure.state (parser this)))
       (Lexure.ordered (parser this)) = ps ++ remaining →
  ps ≠ [] →
  accepted argument (context this options) ps vs →
  room 0 (length ps) (times options) →
  remaining = [] ∨ times options = Some (length ps) →
  (repeatResult arguments options this).1 = Ok vs
  ∧ Lexure.position (Lexure.state (parser (repeatResult arguments options this).2))
    = Lexure.position (Lexure.state (parser this)) + length ps
  ∧ (finished (repeatResult arguments options this).2 = true ↔ remaining = []).
Proof.
  intros Hres Hc Hdrop Hps Hacc Hroom Hstop.
  assert (Hl : length (ps ++ remaining)
               = length (Lexure.ordered (parser this))
                 - Lexure.position (Lexure.state (parser this)))
    by (by rewrite <- Hdrop, length_drop).
  rewrite length_app in Hl.
  assert (0 < length ps) by (destruct ps; [done|simpl; lia]).
  assert (Hrun : repeatResult arguments options this
                 = repeat_loop (S (length (Lexure.ordered (parser this))))
                     argument options (times options) 0 [] this).
  { unfold repeatResult. rewrite Hres, (consistent_finished _ Hc).
    by rewrite bool_decide_false by lia. }
  rewrite Hrun.
  destruct (repeat_loop_takes (S (length (Lexure.ordered (parser this))))
              argument options (times options) 0 [] this ps remaining vs)
    as [Hr Hst]; try done; [lia|].
  split; [exact Hr|]. split; [by rewrite Hst|].
  assert (Ho : Lexure.ordered
                 (parser (repeat_loop (S (length (Lexure.ordered (parser this))))
                            argument options (times options) 0 [] this).2)
               = Lexure.ordered (parser this)).
  { destruct (repeat_loop_only_cursor
                (S (length (Lexure.ordered (parser this))))
                argument options (times options) 0 [] this) as [st Hoc].
    by rewrite Hoc. }
  unfold finished, Lexure.finished. rewrite Hst, Ho.
  cbn [Lexure.used]. rewrite size_set_seq, bool_decide_eq_true.
  split.
  - intros Hsize. apply nil_length_inv. lia.
  - intros ->. simpl in Hl. lia.
Qed.

(** X7. Well-formedness is an invariant of the facade: [save],
    [restore], [start], every extraction ([pickResult], [restResult],
    [repeatResult], [peekResult] and the throwing variants, alone or in
    sequence, returning or throwing) and [nextMaybe] keep the cursor
    and the checkpoints in states in which exactly the parameters
    before the position are used, or all are. *)
Theorem facade_keeps_well_formed (this : Facade) :
  well_formed this →
  well_formed (save this)
  ∧ well_formed (restore this)
  ∧ well_formed (start this)
  ∧ (∀ R (f : Extraction T Message MessageCommand CommandContext Settings R),
       well_formed (call arguments f this).2)
  ∧ (∀ R (options : PeekArgsOptions T Message MessageCommand CommandContext Settings R),
       well_formed (peekResult arguments options this).2)
  ∧ (∀ V (cb : option (string → option V)), well_formed (nextMaybe cb this).2).
Proof.
  intros Hwf.
  split; [by apply save_well_formed|]. split; [by apply restore_well_formed|].
  split; [|split; [|split]].
  - destruct Hwf as [_ Hsts]. split; [apply reset_sound|exact Hsts].
  - intros R f. by apply call_well_formed.
  - intros R options. destruct options as [o|R f].
    + by rewrite peekResult_by_type.
    + unfold peekResult.
      pose proof (call_well_formed f (save this) (save_well_formed _ Hwf)) as H.
      destruct (call arguments f (save this)) as [[r|e] this2]; simpl in *;
        [by apply restore_well_formed|done].
  - intros V [f|]; simpl.
    + pose proof (singleMap_sound f (parser this) (proj1 Hwf)) as Hs.
      pose proof (singleMap_ordered f (parser this)) as Ho.
      destruct (Lexure.singleMap f (parser this)) as [o p]; simpl in *.
      eapply only_cursor_well_formed; [by apply set_parser_only_cursor|done|done].
    + pose proof (single_sound (parser this) (proj1 Hwf)) as Hs.
      pose proof (single_ordered (parser this)) as Ho.
      destruct (Lexure.single (parser this)) as [o p]; simpl in *.
      eapply only_cursor_well_formed; [by apply set_parser_only_cursor|done|done].
Qed.


(** X9. [nextMaybe] that answers with nothing has consumed nothing, be
    it that the stream is exhausted or that the callback refused the
    parameter. *)
Theorem nextMaybe_absent_consumes_nothing {V} (cb : option (string → option V))
    (this : Facade) :
  well_formed this →
  (nextMaybe cb this).1 = None →
  (nextMaybe cb this).2 = this.
Proof.
  intros [Hs _]. destruct (Lexure.finished (parser this)) eqn:Hf.
  - destruct cb as [f|]; simpl;
      unfold Lexure.singleMap, Lexure.single; rewrite Hf; simpl;
      intros _; apply set_parser_parser.
  - pose proof (sound_unfinished _ Hs Hf) as Hc.
    destruct (consistent_lookup _ Hc Hf) as [p Hp].
    destruct cb as [f|]; simpl.
    + rewrite (singleMap_consistent _ _ _ Hc Hp).
      destruct (f (Lexure.value p)); simpl; [done|].
      intros _. apply set_parser_parser.
    + by rewrite (single_consistent _ _ Hc Hp).
Qed.

(** X10. [nextMaybe] with a callback is [pickResult] without the error:
    when the callback answers as the resolver does, both consume the
    same and give the same value, or none. *)
Theorem nextMaybe_as_pickResult (cb : string → option T) (argument : Resolver)
    (options : Options) (this : Facade) :
  well_formed this →
  type options = Inline argument →
  (∀ text, cb text = match Argument.run argument text (context this options) with
                     | Ok v => Some v
                     | Err _ => None
                     end) →
  (nextMaybe (Some cb) this).2 = (pickResult arguments options this).2
  ∧ (nextMaybe (Some cb) this).1
    = match (pickResult arguments options this).1 with
      | Ok v => Some (inl v)
      | Err _ => None
      end.
Proof.
  intros [Hs _] Htype Hcb. unfold pickResult. rewrite Htype. simpl.
  destruct (Lexure.finished (parser this)) eqn:Hf.
  - unfold Lexure.singleMap, Lexure.singleParse. by rewrite Hf.
  - pose proof (sound_unfinished _ Hs Hf) as Hc.
    destruct (consistent_lookup _ Hc Hf) as [p Hp].
    rewrite (singleMap_consistent _ _ _ Hc Hp),
            (singleParse_consistent _ _ _ Hc Hp), Hcb.
    by destruct (Argument.run argument _ _).
Qed.

End ArgsFacts.

(** ** Run-context preconditions *)

Section PreconditionFacts.
Import Preconditions.

Context {Interaction : Type}.
Variable fetch : Interaction -> Channel.


(** C7. Without configured [types], the [RunIn] entry point of every
    transport answers ok, whatever channel the invocation resolves
    to. *)
Theorem RunIn_without_types_is_ok (inv : Invocation Interaction) :
  entry (RunIn fetch) inv {| types := None |} = ok.
Proof. by destruct inv. Qed.

(** A configured list is a different matter, even an empty one: then
    membership decides, so nothing passes an empty list. *)
Lemma RunIn_shared_list (inv : Invocation Interaction) l :
  entry (RunIn fetch) inv {| types := Some (TypesArray l) |}
  = if includes l (channel_type (resolved_channel fetch inv)) then ok
    else makeSharedError {| types := Some (TypesArray l) |}.
Proof. by destruct inv. Qed.

Lemma RunIn_empty_list_refuses (inv : Invocation Interaction) :
  refusal (entry (RunIn fetch) inv {| types := Some (TypesArray []) |})
  = Some Identifiers.PreconditionRunIn.
Proof. rewrite RunIn_shared_list. done. Qed.

(** [GuildNewsOnly] does test the resolved channel in all three entry
    points: the answer (ok, or the refusal with the precondition's
    identifier) depends on the kind of the resolved channel alone. *)
Lemma GuildNewsOnly_by_kind (inv : Invocation Interaction) :
  refusal (entry (GuildNewsOnly fetch) inv tt)
  = if includes allowedTypes (channel_type (resolved_channel fetch inv))
    then None else Some Identifiers.PreconditionGuildNewsOnly.
Proof.
  destruct inv; simpl;
    unfold GuildNewsOnly_messageRun, GuildNewsOnly_chatInputRun,
           GuildNewsOnly_contextMenuRun;
    by destruct (includes allowedTypes _).
Qed.

(** X22. The three entry points of [GuildNewsOnly] give the same answer
    (ok, or the refusal with the precondition's identifier) for the
    same kind of resolved channel. *)
Lemma GuildNewsOnly_entry_points_agree (inv1 inv2 : Invocation Interaction) :
  channel_type (resolved_channel fetch inv1)
    = channel_type (resolved_channel fetch inv2) →
  refusal (entry (GuildNewsOnly fetch) inv1 tt)
  = refusal (entry (GuildNewsOnly fetch) inv2 tt).
Proof. intros H. by rewrite !GuildNewsOnly_by_kind, H. Qed.

(** X23. In [GuildNewsThreadOnly] the two interaction entry points
    agree and accept exactly the resolved channels of kind
    [GuildNewsThread]; [messageRun] tests [message.thread], the thread
    started from the message, and never looks at [message.channel]. *)
Lemma GuildNewsThreadOnly_interaction_by_kind (i : Interaction) :
  refusal (entry (GuildNewsThreadOnly fetch) (ByChatInput i) tt)
  = refusal (entry (GuildNewsThreadOnly fetch) (ByContextMenu i) tt)
  ∧ refusal (entry (GuildNewsThreadOnly fetch) (ByChatInput i) tt)
    = if bool_decide (channel_type (fetch i) = GuildNewsThread)
      then None else Some Identifiers.PreconditionGuildNewsThreadOnly.
Proof.
  simpl. unfold GuildNewsThreadOnly_chatInputRun, GuildNewsThreadOnly_contextMenuRun.
  by case_bool_decide.
Qed.

Lemma GuildNewsThreadOnly_message_ignores_channel (c c' : Channel) th :
  entry (GuildNewsThreadOnly fetch) (ByMessage (mkMessage c th)) tt
  = entry (GuildNewsThreadOnly fetch) (ByMessage (mkMessage c' th)) tt.
Proof. done. Qed.

(** X12. With configured [types], [RunIn] is a membership test of the
    kind of the resolved channel in the list of the transport that is
    running: the shared list, or that transport's own, the lists of the
    other transports having no say. *)
Theorem RunIn_decides_by_own_list (inv : Invocation Interaction) (t : RunInTypes) :
  entry (RunIn fetch) inv {| types := Some t |}
  = if includes (consulted inv t) (channel_type (resolved_channel fetch inv))
    then ok
    else makeSharedError {| types := Some t |}.
Proof. by destruct inv, t. Qed.

(** X13. A refusal of [RunIn] always has the identifier of [RunIn] and
    carries the configured [types] as its context, whichever transport
    refused. *)
Theorem RunIn_refusal_carries_types (inv : Invocation Interaction)
    (context : RunInPreconditionContext) e :
  entry (RunIn fetch) inv context = Err e →
  identifier (user_error e) = Identifiers.PreconditionRunIn
  ∧ error_context e = types context
  ∧ is_Some (types context).
Proof.
  destruct context as [[t|]]; [|by destruct inv].
  destruct inv, t; simpl;
    unfold RunIn_messageRun, RunIn_chatInputRun, RunIn_contextMenuRun; simpl;
    destruct (includes _ _); try done;
    intros [= <-]; by eauto.
Qed.

(** X14. With one list shared by all transports, the three entry points
    of [RunIn] give the same result for the same kind of resolved
    channel, error included. *)
Theorem RunIn_shared_list_by_kind (inv1 inv2 : Invocation Interaction) l :
  channel_type (resolved_channel fetch inv1)
    = channel_type (resolved_channel fetch inv2) →
  entry (RunIn fetch) inv1 {| types := Some (TypesArray l) |}
  = entry (RunIn fetch) inv2 {| types := Some (TypesArray l) |}.
Proof. intros H. by rewrite !RunIn_shared_list, H. Qed.

End PreconditionFacts.

(** C8, at the input where it fails.  A message sent in an announcement
    thread (no thread was started from it) and an interaction in the
    same kind of channel: the resolved channel kinds are equal, the two
    interaction entry points of [GuildNewsThreadOnly] answer ok, and
    [messageRun] refuses. *)
Theorem GuildNewsThreadOnly_messageRun_disagrees :
  let fetch := λ c : Preconditions.Channel, c in
  let kind := Preconditions.GuildNewsThread in
  let m := Preconditions.mkMessage (Preconditions.mkChannel kind) None in
  let i := Preconditions.mkChannel kind in
  Preconditions.channel_type
    (Preconditions.resolved_channel fetch (Preconditions.ByMessage m)) = kind
  ∧ Preconditions.channel_type
      (Preconditions.resolved_channel fetch (Preconditions.ByChatInput i)) = kind
  ∧ Preconditions.entry (Preconditions.GuildNewsThreadOnly fetch)
      (Preconditions.ByChatInput i) tt = Preconditions.ok
  ∧ Preconditions.entry (Preconditions.GuildNewsThreadOnly fetch)
      (Preconditions.ByContextMenu i) tt = Preconditions.ok
  ∧ Preconditions.refusal (Preconditions.entry (Preconditions.GuildNewsThreadOnly fetch)
               (Preconditions.ByMessage m) tt)
    = Some Identifiers.PreconditionGuildNewsThreadOnly.
Proof. repeat split. Qed.

(** ** The interaction-handler store *)

Section StoreFacts.
Import InteractionHandlers.

Context {D Exn : Type}.

Abbreviation Handler := (InteractionHandler D Exn).
Abbreviation Payload := (Unknown D).

Implicit Types (handler : Handler) (interaction : Interaction)
               (st : Dispatch D Exn) (store : list Handler).

(** A parse step that throws (or rejects) is caught: the turn changes
    nothing and the loop goes on. *)
Lemma iteration_parse_throws interaction handler st :
  parse_throws handler interaction → iteration interaction handler st = (st, None).
Proof.
  unfold parse_throws, iteration.
  destruct (get _ _) as [filter|]; [|done].
  destruct (negb (filter interaction)); [done|].
  by destruct (parse handler interaction) as [[[v|]|e]|e].
Qed.

(** A claim calls the run step with the payload of the claim. *)
Lemma iteration_claims interaction handler st value :
  accepts handler interaction = true →
  parse_claims handler interaction value →
  invoked (iteration interaction handler st).1
  = invoked st ++ [(handler, value)].
Proof.
  unfold accepts, parse_claims, iteration. intros Hacc ->.
  destruct (get _ _) as [filter|]; [|done]. rewrite Hacc. simpl.
  by destruct (run handler interaction value).
Qed.

(** Calls are only ever added. *)
Lemma iteration_invoked interaction handler st :
  invoked st `prefix_of` invoked (iteration interaction handler st).1.
Proof.
  unfold iteration.
  destruct (get _ _) as [filter|]; [|done].
  destruct (negb (filter interaction)); [done|].
  destruct (parse handler interaction) as [[[v|]|e]|e]; try done.
  destruct (run handler interaction v); simpl; by apply prefix_app_r.
Qed.

Lemma loop_invoked interaction store st :
  invoked st `prefix_of` invoked (loop interaction store st).1.
Proof.
  revert st. induction store as [|handler store IH]; intros st; simpl; [done|].
  pose proof (iteration_invoked interaction handler st) as H.
  destruct (iteration interaction handler st) as [st' [e|]]; simpl in *; [done|].
  by etrans.
Qed.

Lemma loop_app interaction store1 store2 st :
  loop interaction (store1 ++ store2) st
  = match loop interaction store1 st with
    | (st', None) => loop interaction store2 st'
    | (st', Some e) => (st', Some e)
    end.
Proof.
  revert st. induction store1 as [|handler store1 IH]; intros st; simpl; [done|].
  by destruct (iteration interaction handler st) as [st' [e|]].
Qed.

(** The run steps the store called are those of its loop. *)
Lemma store_run_called store interaction :
  called (store_run store interaction) = invoked (loop interaction store initial).1.
Proof.
  unfold store_run. case_bool_decide as Hlen.
  - by destruct store.
  - destruct (loop interaction store initial) as [st [e|]]; [done|].
    by case_bool_decide.
Qed.

(** When every run step comes back with a value or a promise, no
    exception leaves the loop. *)
Lemma iteration_no_escape interaction handler st :
  run_returns handler interaction → (iteration interaction handler st).2 = None.
Proof.
  intros Hrun. unfold iteration.
  destruct (get _ _) as [filter|]; [|done].
  destruct (negb (filter interaction)); [done|].
  destruct (parse handler interaction) as [[[v|]|e]|e]; try done.
  destruct (Hrun v) as [p ->]. done.
Qed.

Lemma loop_no_escape interaction store st :
  (∀ handler, handler ∈ store → run_returns handler interaction) →
  (loop interaction store st).2 = None.
Proof.
  revert st. induction store as [|handler store IH]; intros st Hrun; simpl; [done|].
  pose proof (iteration_no_escape interaction handler st) as H.
  destruct (iteration interaction handler st) as [st' [e|]]; simpl in *.
  - discriminate H. apply Hrun. by left.
  - apply IH. intros h Hh. apply Hrun. by right.
Qed.

Lemma store_run_completion store interaction :
  completion (store_run store interaction)
  = match (loop interaction store initial).2 with
    | None => Fulfilled tt
    | Some e => Rejected e
    end.
Proof.
  unfold store_run. case_bool_decide as Hlen.
  - by destruct store.
  - destruct (loop interaction store initial) as [st [e|]]; [done|].
    by case_bool_decide.
Qed.

(** Once the loop gets to a claiming handler, its run step is among
    the calls of the store. *)
Lemma store_run_reached before handler after interaction value :
  (loop interaction before initial).2 = None →
  accepts handler interaction = true →
  parse_claims handler interaction value →
  (handler, value) ∈ called (store_run (before ++ handler :: after) interaction).
Proof.
  intros Hbefore Hacc Hclaim.
  rewrite store_run_called, loop_app.
  destruct (loop interaction before initial) as [st [e|]]; simpl in *; [done|].
  pose proof (iteration_claims interaction handler st value Hacc Hclaim) as Hcall.
  pose proof (loop_invoked interaction after (iteration interaction handler st).1) as Hpre.
  destruct (iteration interaction handler st) as [st' [e|]]; simpl in *.
  - rewrite Hcall. set_solver.
  - eapply elem_of_prefix; [|exact Hpre]. rewrite Hcall. set_solver.
Qed.

(** X21. The isolation of the parse step, when the run steps come back: with
    one handler whose parse step throws and another whose parse step
    claims, the run step of the latter is called and the store's [run]
    fulfils. *)
Lemma store_run_parse_isolated store interaction thrower claimer value :
  thrower ∈ store → claimer ∈ store →
  accepts thrower interaction = true → accepts claimer interaction = true →
  parse_throws thrower interaction →
  parse_claims claimer interaction value →
  (∀ handler, handler ∈ store → run_returns handler interaction) →
  (claimer, value) ∈ called (store_run store interaction)
  ∧ completion (store_run store interaction) = Fulfilled tt.
Proof.
  intros _ Hin _ Hacc _ Hclaim Hrun. split.
  - apply list_elem_of_split in Hin as (before & after & ->).
    apply store_run_reached; [|done..].
    apply loop_no_escape. intros h Hh. apply Hrun. set_solver.
  - by rewrite store_run_completion, loop_no_escape.
Qed.

(** What one turn does, in terms of the claim of the handler. *)
Lemma iteration_unclaimed interaction handler st :
  claimed interaction handler = None →
  iteration interaction handler st = (st, None).
Proof.
  unfold claimed, accepts, iteration.
  destruct (get _ _) as [filter|]; [|done].
  destruct (filter interaction); simpl; [|done].
  by destruct (parse handler interaction) as [[[v|]|e]|e].
Qed.

Lemma iteration_claimed interaction handler st h value :
  claimed interaction handler = Some (h, value) →
  h = handler
  ∧ iteration interaction handler st
    = match run handler interaction value with
      | Throws e =>
          ({| promises := promises st;
              invoked := invoked st ++ [(handler, value)] |}, Some e)
      | Returns p =>
          ({| promises := promises st ++ [p];
              invoked := invoked st ++ [(handler, value)] |}, None)
      end.
Proof.
  unfold claimed, accepts, iteration.
  destruct (get _ _) as [filter|]; [|done].
  destruct (filter interaction); simpl; [|done].
  destruct (parse handler interaction) as [[[v|]|e]|e]; try done.
  intros [= <- <-]. split; [done|].
  by destruct (run handler interaction v).
Qed.

Lemma loop_returns interaction store st :
  (∀ handler, handler ∈ store → run_returns handler interaction) →
  invoked (loop interaction store st).1
  = invoked st ++ omap (claimed interaction) store
  ∧ length (promises (loop interaction store st).1)
    = length (promises st) + length (omap (claimed interaction) store).
Proof.
  revert st. induction store as [|handler store IH]; intros st Hrun; simpl.
  - rewrite app_nil_r. split; [done|lia].
  - destruct (claimed interaction handler) as [[h value]|] eqn:Hclaim.
    + destruct (iteration_claimed _ _ st _ _ Hclaim) as [-> Hit].
      destruct (Hrun handler (list_elem_of_here _ _) value) as [p Hp].
      rewrite Hit, Hp.
      destruct (IH {| promises := promises st ++ [p];
                      invoked := invoked st ++ [(handler, value)] |}) as [Hi Hl].
      { intros h' Hh'. apply Hrun. by right. }
      rewrite Hi, Hl. simpl. rewrite <- app_assoc, length_app. simpl.
      unfold omap. split; [done|lia].
    + rewrite (iteration_unclaimed _ _ st Hclaim).
      apply IH. intros h' Hh'. apply Hrun. by right.
Qed.

(** X24. The turn of the loop for a handler that keeps the inherited
    [parse] and whose type filter accepts the interaction applies the
    run step to the interaction and [undefined]: what the run step
    returns is pushed to the promises, what it throws leaves the loop. *)
Theorem inherited_parse_turn handler interaction st :
  parse handler = InteractionHandler_parse →
  accepts handler interaction = true →
  parse handler interaction = Returns (Fulfilled (some undefined))
  ∧ iteration interaction handler st
    = match run handler interaction undefined with
      | Throws e =>
          ({| promises := promises st;
              invoked := invoked st ++ [(handler, undefined)] |}, Some e)
      | Returns p =>
          ({| promises := promises st ++ [p];
              invoked := invoked st ++ [(handler, undefined)] |}, None)
      end.
Proof.
  intros Hparse Hacc.
  assert (Hclaim : parse handler interaction = Returns (Fulfilled (some undefined)))
    by (by rewrite Hparse).
  split; [exact Hclaim|].
  apply (iteration_claimed interaction handler st handler undefined).
  unfold claimed. by rewrite Hacc, Hclaim.
Qed.

(** X15. When every run step comes back with a value or a promise, the
    store calls the run steps of exactly the handlers that claim the
    interaction, once each, in the order of the store and with the
    payload of the claim, waits for as many results, and fulfils, even
    when run steps reject. *)
Theorem store_run_calls_the_claims store interaction :
  (∀ handler, handler ∈ store → run_returns handler interaction) →
  called (store_run store interaction) = omap (claimed interaction) store
  ∧ length (settled (store_run store interaction))
    = length (omap (claimed interaction) store)
  ∧ completion (store_run store interaction) = Fulfilled tt.
Proof.
  intros Hrun.
  destruct (loop_returns interaction store initial Hrun) as [Hi Hl].
  pose proof (loop_no_escape interaction store initial Hrun) as Hesc.
  simpl in Hi, Hl. unfold store_run.
  case_bool_decide as Hlen.
  - by destruct store.
  - destruct (loop interaction store initial) as [st [e|]]; simpl in *; [done|].
    case_bool_decide as Hp; simpl; [|done].
    by rewrite <- Hl, Hp.
Qed.

(** X16. The store never calls the run step of a handler that did not
    claim the interaction: every call is for a handler of the store
    whose type filter accepted and whose parse step claimed, with the
    claimed payload, whatever the handlers do otherwise. *)
Theorem store_run_calls_only_claims store interaction handler value :
  (handler, value) ∈ called (store_run store interaction) →
  handler ∈ store
  ∧ accepts handler interaction = true
  ∧ parse_claims handler interaction value.
Proof.
  rewrite store_run_called.
  assert (Hgen : ∀ st,
    (handler, value) ∈ invoked (loop interaction store st).1 →
    (handler, value) ∈ invoked st
    ∨ (handler ∈ store ∧ claimed interaction handler = Some (handler, value))).
  { induction store as [|h store IH]; intros st; simpl; [by left|].
    destruct (claimed interaction h) as [[h' v]|] eqn:Hclaim.
    - destruct (iteration_claimed _ _ st _ _ Hclaim) as [-> Hit]. rewrite Hit.
      assert (Hhere : ∀ x, x ∈ invoked st ++ [(h, v)] →
                x ∈ invoked st ∨ x = (h, v)).
      { intros x Hx. apply elem_of_app in Hx as [Hx|Hx]; [by left|].
        apply list_elem_of_singleton in Hx. by right. }
      destruct (run h interaction v) as [p|e]; simpl.
      + intros Hin. apply IH in Hin as [Hin|[Hin Hc]].
        * apply Hhere in Hin as [Hin|[= -> ->]]; [by left|].
          right. split; [by left|done].
        * right. split; [by right|done].
      + intros Hin. apply Hhere in Hin as [Hin|[= -> ->]]; [by left|].
        right. split; [by left|done].
    - rewrite (iteration_unclaimed _ _ st Hclaim).
      intros Hin. apply IH in Hin as [Hin|[Hin Hc]]; [by left|].
      right. split; [by right|done]. }
  intros Hin. apply Hgen in Hin as [Hin|[Hin Hc]]; [by apply elem_of_nil in Hin|].
  split; [done|]. unfold claimed, parse_claims in *.
  destruct (accepts handler interaction); [|done]. split; [done|].
  by destruct (parse handler interaction) as [[[v|]|e]|e]; simplify_eq.
Qed.

(** X17. An interaction that is no button, no select menu and no
    message component gets past no type filter: the store calls no run
    step and fulfils, whatever its handlers are. *)
Theorem store_run_no_component store interaction :
  isButton interaction = false →
  isSelectMenu interaction = false →
  isMessageComponent interaction = false →
  store_run store interaction
  = {| called := []; settled := []; completion := Fulfilled tt |}.
Proof.
  intros Hb Hs Hm.
  assert (Hloop : ∀ st, loop interaction store st = (st, None)).
  { induction store as [|handler store IH]; intros st; simpl; [done|].
    rewrite iteration_unclaimed; [apply IH|].
    unfold claimed, accepts.
    destruct (interactionHandlerType handler); simpl; by rewrite ?Hb, ?Hs, ?Hm. }
  unfold store_run. rewrite Hloop. by case_bool_decide.
Qed.

(** X18. A run step that throws while it is called ends the dispatch on
    the spot: the promise of the store's [run] rejects with what was
    thrown, no later handler has its turn, and the run steps called
    before are not waited for. *)
Theorem store_run_stops_at_throw before handler after interaction value e :
  (loop interaction before initial).2 = None →
  accepts handler interaction = true →
  parse_claims handler interaction value →
  run handler interaction value = Throws e →
  called (store_run (before ++ handler :: after) interaction)
  = invoked (loop interaction before initial).1 ++ [(handler, value)]
  ∧ settled (store_run (before ++ handler :: after) interaction) = []
  ∧ completion (store_run (before ++ handler :: after) interaction) = Rejected e.
Proof.
  intros Hbefore Hacc Hclaim Hthrow.
  assert (Hc : claimed interaction handler = Some (handler, value)).
  { unfold claimed. rewrite Hacc. unfold parse_claims in Hclaim. by rewrite Hclaim. }
  unfold store_run. rewrite bool_decide_false by (rewrite length_app; simpl; lia).
  rewrite loop_app.
  destruct (loop interaction before initial) as [st [e'|]]; simpl in *; [done|].
  destruct (iteration_claimed _ _ st _ _ Hc) as [_ Hit].
  by rewrite Hit, Hthrow.
Qed.

End StoreFacts.

(** ** The listener of possible autocomplete interactions *)

Section ListenerFacts.
Import Listeners.

Context {D Exn : Type}.

Implicit Types (commandStore : gmap string (Command Exn))
               (interaction : AutocompleteInteraction)
               (interactionHandlers : list (InteractionHandlers.InteractionHandler D Exn)).

(** X19. When the command of the interaction has an [autocompleteRun],
    nothing it does escapes the listener: the promise of [run] fulfils,
    exactly one event is emitted (the error event with what was thrown
    or rejected, the success event otherwise) and the interaction
    handlers are not run. *)
Theorem autocomplete_is_contained commandStore interactionHandlers interaction
    command autocomplete :
  resolve commandStore interaction = Some command →
  autocompleteRun command = Some autocomplete →
  completion (run commandStore interactionHandlers interaction)
    = InteractionHandlers.Fulfilled tt
  ∧ handlers (run commandStore interactionHandlers interaction) = None
  ∧ emitted (run commandStore interactionHandlers interaction)
    = [match autocomplete interaction with
       | InteractionHandlers.Returns (InteractionHandlers.Fulfilled _) =>
           CommandAutocompleteInteractionSuccess (payload_of command interaction)
       | InteractionHandlers.Returns (InteractionHandlers.Rejected err)
       | InteractionHandlers.Throws err =>
           CommandAutocompleteInteractionError err (payload_of command interaction)
       end].
Proof.
  intros Hres Hauto. unfold run. rewrite Hres, Hauto.
  by destruct (autocomplete interaction) as [[[]|err]|err].
Qed.


End ListenerFacts.

(** C2, at an input where it fails.  Three button handlers and a button
    interaction: the parse step of [thrower] throws, and is caught; the
    parse step of [crasher] claims, and its run step throws while it is
    being called, outside any [try]; the exception leaves the loop and
    rejects the promise of the store's [run], before [claimer], whose
    parse step claims as well, has had its turn. *)
Theorem store_run_sync_throw_escapes :
  let store := [Samples.thrower; Samples.crasher; Samples.claimer] in
  (∀ handler, handler ∈ store →
     InteractionHandlers.accepts handler Samples.button = true)
  ∧ InteractionHandlers.parse_throws Samples.thrower Samples.button
  ∧ InteractionHandlers.parse_claims Samples.claimer Samples.button
      InteractionHandlers.undefined
  ∧ InteractionHandlers.store_run store Samples.button
    = {| InteractionHandlers.called :=
           [(Samples.crasher, InteractionHandlers.undefined)];
         InteractionHandlers.settled := [];
         InteractionHandlers.completion :=
           InteractionHandlers.Rejected "run failed" |}
  ∧ (Samples.claimer, InteractionHandlers.undefined)
      ∉ InteractionHandlers.called (InteractionHandlers.store_run store Samples.button).
Proof.
  simpl. split; [|split; [done|split; [done|split; [done|]]]].
  - intros handler Hin. repeat (apply elem_of_cons in Hin as [->|Hin]; [done|]).
    by apply elem_of_nil in Hin.
  - unfold InteractionHandlers.store_run; simpl.
    intros Hin. apply list_elem_of_singleton in Hin. discriminate Hin.
Qed.

(** With two handlers the exception escapes all the same, after the run
    step of the claiming handler was called. *)
Example store_run_sync_throw_two_handlers :
  InteractionHandlers.store_run [Samples.thrower; Samples.crasher] Samples.button
  = {| InteractionHandlers.called :=
         [(Samples.crasher, InteractionHandlers.undefined)];
       InteractionHandlers.settled := [];
       InteractionHandlers.completion :=
         InteractionHandlers.Rejected "run failed" |}.
Proof. reflexivity. Qed.

(** And with run steps that return, the two handlers of the scenario
    behave as the isolation of the parse step promises. *)
Example store_run_two_handlers :
  InteractionHandlers.store_run [Samples.thrower; Samples.claimer] Samples.button
  = {| InteractionHandlers.called :=
         [(Samples.claimer, InteractionHandlers.undefined)];
       InteractionHandlers.settled :=
         [InteractionHandlers.Fulfilled InteractionHandlers.undefined];
       InteractionHandlers.completion := InteractionHandlers.Fulfilled tt |}.
Proof. reflexivity. Qed.

(** ** The facade on sample streams *)

Example pick_integer :
  Args.pickResult Samples.registry (Samples.by_name "integer") (Samples.facade ["5"; "6"])
  = (Ok 5,
     Args.set_parser (Samples.facade ["5"; "6"])
       (Lexure.advance (Lexure.fresh (Samples.words ["5"; "6"])))).
Proof. vm_compute. reflexivity. Qed.

Example pick_unknown_type :
  (Args.pickResult Samples.registry (Samples.by_name "date") (Samples.facade ["5"])).1
  = Args.unavailableArgument (Args.ByName "date" : Args.ArgType nat unit unit unit unit).
Proof. vm_compute. reflexivity. Qed.

Example repeat_unbounded :
  let r := Args.repeatResult Samples.registry (Samples.repeat_by_name "integer" None)
             (Samples.facade ["1"; "2"; "3"]) in
  r.1 = Ok [1; 2; 3] ∧ Args.finished r.2 = true.
Proof. vm_compute. split; reflexivity. Qed.

Example repeat_no_turn :
  (Args.repeatResult Samples.registry (Samples.repeat_by_name "integer" (Some 0))
     (Samples.facade ["x"])).1 = Ok [].
Proof. vm_compute. reflexivity. Qed.

Example peek_then_pick :
  let peeked := Args.peekResult Samples.registry
                  (Args.PeekType (Samples.by_name "integer")) (Samples.facade ["7"; "8"]) in
  peeked.1 = Args.Returned (Ok 7)
  ∧ (Args.pickResult Samples.registry (Samples.by_name "integer") peeked.2).1 = Ok 7.
Proof. vm_compute. split; reflexivity. Qed.

Example peek_repeat_then_rest :
  let f := Args.RepeatThen (Samples.repeat_by_name "integer" None)
             (λ r, Args.RestThen (Samples.by_name "integer") (λ r', Args.Return (r, r'))) in
  Args.peekResult Samples.registry (Args.PeekFunction f) (Samples.facade ["1"; "2"; "x"])
  = (Args.Returned (Ok [1; 2], Err Samples.integer_error),
     Samples.facade ["1"; "2"; "x"]).
Proof. vm_compute. reflexivity. Qed.

(** ** The claims with hypotheses, at sample inputs *)

Lemma restResult_failure_restores_cursor_witness :
  let this := Samples.facade ["1"; "x"] in
  let options := Samples.by_name "integer" in
  (Args.restResult Samples.registry options this).1 = Err Samples.integer_error
  ∧ (Args.restResult Samples.registry options this).2 = this
  ∧ ∀ options',
      Args.pickResult Samples.registry options'
        (Args.restResult Samples.registry options this).2
      = Args.pickResult Samples.registry options' this.
Proof.
  simpl. split; [vm_compute; reflexivity|].
  apply (restResult_failure_restores_cursor Samples.registry
           (Samples.by_name "integer") (Samples.facade ["1"; "x"])
           Samples.integer_error).
  vm_compute. reflexivity.
Defined.

Lemma pickResult_exhausted_witness :
  let this := Samples.facade [] in
  let options := Samples.by_name "integer" in
  Args.finished this = true
  ∧ Args.resolveArgument Samples.registry (Args.type options) = Some Samples.integer
  ∧ ∃ e, Args.pickResult Samples.registry options this = (Err e, this)
       ∧ identifier e = Identifiers.ArgsMissing
       ∧ identifier e ≠ Identifiers.ArgsUnavailable
       ∧ (∀ t : Args.ArgType nat unit unit unit unit,
            Args.unavailableArgument (V := nat) t ≠ Err e)
       ∧ (∀ argument' : Argument.IArgument nat unit unit unit unit,
            Args.pickResult Samples.registry
              {| Args.type := Args.Inline argument'; Args.options_settings := tt |}
              this
            = (Err e, this)).
Proof.
  simpl. split; [vm_compute; reflexivity|]. split; [vm_compute; reflexivity|].
  apply (pickResult_exhausted Samples.registry (Samples.by_name "integer")
           (Samples.facade []) Samples.integer);
    vm_compute; reflexivity.
Defined.

Lemma repeatResult_first_attempt_fails_witness :
  let this := Samples.facade ["x"; "2"] in
  let options := Samples.repeat_by_name "integer" None in
  let p := Lexure.mkParameter "x" EmptyString in
  Args.resolveArgument Samples.registry (Args.type (Args.args_options options))
    = Some Samples.integer
  ∧ Args.times options ≠ Some 0
  ∧ Lexure.next_parameter (Args.parser this) = Some p
  ∧ Argument.run Samples.integer (Lexure.value p) (Args.context this (Args.args_options options))
    = Err Samples.integer_error
  ∧ (Args.repeatResult Samples.registry options this).1 = Err Samples.integer_error.
Proof.
  simpl.
  split; [vm_compute; reflexivity|]. split; [discriminate|].
  split; [vm_compute; reflexivity|]. split; [vm_compute; reflexivity|].
  apply (repeatResult_first_attempt_fails Samples.registry
           (Samples.repeat_by_name "integer" None) (Samples.facade ["x"; "2"])
           Samples.integer (Lexure.mkParameter "x" EmptyString) Samples.integer_error);
    [vm_compute; reflexivity|discriminate|vm_compute; reflexivity|vm_compute; reflexivity].
Defined.

Lemma repeatResult_times_witness :
  let this := Samples.facade ["1"; "2"; "x"; "4"] in
  let options := Samples.repeat_by_name "integer" (Some 3) in
  Args.times options = Some 3
  ∧ (∀ vs, (Args.repeatResult Samples.registry options this).1 = Ok vs → length vs ≤ 3)
  ∧ (Args.repeatResult Samples.registry options this).1 = Ok [1; 2]
  ∧ 0 < length [1; 2] < 3.
Proof.
  simpl. split; [reflexivity|].
  destruct (repeatResult_times Samples.registry
              (Samples.repeat_by_name "integer" (Some 3))
              (Samples.facade ["1"; "2"; "x"; "4"]) 3 eq_refl) as [Hmost Hfewer].
  split; [exact Hmost|].
  apply (Hfewer Samples.integer
           (Samples.words ["1"; "2"]) (Lexure.mkParameter "x" " ")
           [Lexure.mkParameter "4" " "] [1; 2] Samples.integer_error).
  - vm_compute. reflexivity.
  - split; [reflexivity|simpl; lia].
  - reflexivity.
  - repeat constructor.
  - discriminate.
  - simpl. lia.
  - vm_compute. reflexivity.
Defined.

(** ** The further properties with hypotheses, at sample inputs *)

(** A sample facade is well-formed: fresh cursor, no checkpoint. *)
Ltac sample_well_formed :=
  split; [left; split; [reflexivity | simpl; lia] | constructor].

Lemma unknown_type_fails_first_witness :
  let options := Samples.by_name "date" in
  let this := Samples.facade [] in
  Args.resolveArgument Samples.registry (Args.type options) = None
  ∧ Args.pickResult Samples.registry options this
    = (Args.unavailableArgument (Args.type options), this)
  ∧ Args.restResult Samples.registry options this
    = (Args.unavailableArgument (Args.type options), this)
  ∧ Args.repeatResult Samples.registry (Args.mkRepeatOptions options None) this
    = (Args.unavailableArgument (Args.type options), this)
  ∧ ∀ e, Args.unavailableArgument (V := nat) (Args.type options) = Err e →
         identifier e = Identifiers.ArgsUnavailable.
Proof.
  simpl. split; [vm_compute; reflexivity|].
  apply (unknown_type_fails_first Samples.registry (Samples.by_name "date")
           (Samples.facade []) None).
  vm_compute. reflexivity.
Defined.

Lemma failed_extraction_consumes_nothing_witness :
  let options := Samples.by_name "integer" in
  let repeated := Samples.repeat_by_name "integer" None in
  let this := Samples.facade ["x"; "2"] in
  Args.well_formed this
  ∧ (∀ e, (Args.pickResult Samples.registry options this).1 = Err e →
          (Args.pickResult Samples.registry options this).2 = this)
  ∧ (∀ e, (Args.repeatResult Samples.registry repeated this).1 = Err e →
          (Args.repeatResult Samples.registry repeated this).2 = this).
Proof.
  simpl. split; [sample_well_formed|].
  apply (failed_extraction_consumes_nothing Samples.registry
           (Samples.by_name "integer") (Samples.repeat_by_name "integer" None)
           (Samples.facade ["x"; "2"])).
  sample_well_formed.
Defined.

Lemma pickResult_success_consumes_one_witness :
  let options := Samples.by_name "integer" in
  let this := Samples.facade ["5"; "6"] in
  Args.well_formed this
  ∧ (Args.pickResult Samples.registry options this).1 = Ok 5
  ∧ (Args.pickResult Samples.registry options this).2
    = Args.set_parser this (Lexure.advance (Args.parser this))
  ∧ ∃ argument p,
      Args.resolveArgument Samples.registry (Args.type options) = Some argument
      ∧ Lexure.ordered (Args.parser this)
          !! Lexure.position (Lexure.state (Args.parser this)) = Some p
      ∧ Argument.run argument (Lexure.value p) (Args.context this options) = Ok 5.
Proof.
  simpl. split; [sample_well_formed|]. split; [vm_compute; reflexivity|].
  apply (pickResult_success_consumes_one Samples.registry
           (Samples.by_name "integer") (Samples.facade ["5"; "6"]) 5);
    [sample_well_formed|vm_compute; reflexivity].
Defined.

Lemma restResult_success_takes_all_witness :
  let options := Samples.inline Samples.size in
  let this := Samples.facade ["ab"; "c"] in
  Args.well_formed this
  ∧ (Args.restResult Samples.registry options this).1 = Ok 4
  ∧ Args.finished (Args.restResult Samples.registry options this).2 = true
  ∧ ∃ argument,
      Args.resolveArgument Samples.registry (Args.type options) = Some argument
      ∧ Argument.run argument
          (Lexure.join (drop (Lexure.position (Lexure.state (Args.parser this)))
                             (Lexure.ordered (Args.parser this))))
          (Args.context this options) = Ok 4.
Proof.
  simpl. split; [sample_well_formed|]. split; [vm_compute; reflexivity|].
  apply (restResult_success_takes_all Samples.registry
           (Samples.inline Samples.size) (Samples.facade ["ab"; "c"]) 4);
    [sample_well_formed|vm_compute; reflexivity].
Defined.

Lemma repeatResult_empty_success_witness :
  let options := Samples.repeat_by_name "integer" (Some 0) in
  let this := Samples.facade ["x"] in
  Args.well_formed this
  ∧ (Args.repeatResult Samples.registry options this).1 = Ok []
  ∧ Args.times options = Some 0.
Proof.
  simpl. split; [sample_well_formed|]. split; [vm_compute; reflexivity|].
  apply (repeatResult_empty_success Samples.registry
           (Samples.repeat_by_name "integer" (Some 0)) (Samples.facade ["x"]));
    [sample_well_formed|vm_compute; reflexivity].
Defined.

Lemma repeatResult_collects_witness :
  let options := Samples.repeat_by_name "integer" (Some 2) in
  let this := Samples.facade ["1"; "2"; "3"] in
  let ps := Samples.words ["1"; "2"] in
  let remaining := [Lexure.mkParameter "3" " "] in
  Args.resolveArgument Samples.registry (Args.type (Args.args_options options))
    = Some Samples.integer
  ∧ Lexure.consistent (Args.parser this)
  ∧ drop (Lexure.position (Lexure.state (Args.parser this)))
         (Lexure.ordered (Args.parser this)) = ps ++ remaining
  ∧ ps ≠ []
  ∧ Args.accepted Samples.integer (Args.context this (Args.args_options options))
      ps [1; 2]
  ∧ Args.room 0 (length ps) (Args.times options)
  ∧ (remaining = [] ∨ Args.times options = Some (length ps))
  ∧ (Args.repeatResult Samples.registry options this).1 = Ok [1; 2]
  ∧ Lexure.position
      (Lexure.state (Args.parser (Args.repeatResult Samples.registry options this).2))
    = Lexure.position (Lexure.state (Args.parser this)) + length ps
  ∧ (Args.finished (Args.repeatResult Samples.registry options this).2 = true
     ↔ remaining = []).
Proof.
  simpl.
  split; [vm_compute; reflexivity|].
  split; [split; [reflexivity|simpl; lia]|].
  split; [reflexivity|]. split; [discriminate|].
  split; [repeat constructor|]. split; [simpl; lia|]. split; [by right|].
  apply (repeatResult_collects Samples.registry
           (Samples.repeat_by_name "integer" (Some 2))
           (Samples.facade ["1"; "2"; "3"]) Samples.integer
           (Samples.words ["1"; "2"]) [Lexure.mkParameter "3" " "] [1; 2]).
  - vm_compute. reflexivity.
  - split; [reflexivity|simpl; lia].
  - reflexivity.
  - discriminate.
  - repeat constructor.
  - simpl. lia.
  - by right.
Defined.

Lemma facade_keeps_well_formed_witness :
  let this := Samples.facade ["1"] in
  Args.well_formed this
  ∧ Args.well_formed (Args.save this)
  ∧ Args.well_formed (Args.restore this)
  ∧ Args.well_formed (Args.start this)
  ∧ (∀ R (f : Args.Extraction nat unit unit unit unit R),
       Args.well_formed (Args.call Samples.registry f this).2)
  ∧ (∀ R (options : Args.PeekArgsOptions nat unit unit unit unit R),
       Args.well_formed (Args.peekResult Samples.registry options this).2)
  ∧ (∀ V (cb : option (string → option V)),
       Args.well_formed (Args.nextMaybe cb this).2).
Proof.
  simpl. split; [sample_well_formed|].
  apply (facade_keeps_well_formed Samples.registry (Samples.facade ["1"])).
  sample_well_formed.
Defined.

Lemma nextMaybe_absent_consumes_nothing_witness :
  let this := Samples.facade ["x"] in
  let cb := Some Samples.as_integer in
  Args.well_formed this
  ∧ (Args.nextMaybe cb this).1 = None
  ∧ (Args.nextMaybe cb this).2 = this.
Proof.
  simpl. split; [sample_well_formed|]. split; [vm_compute; reflexivity|].
  apply (nextMaybe_absent_consumes_nothing (Some Samples.as_integer)
           (Samples.facade ["x"]));
    [sample_well_formed|vm_compute; reflexivity].
Defined.

Lemma nextMaybe_as_pickResult_witness :
  let this := Samples.facade ["7"; "x"] in
  let options := Samples.inline Samples.integer in
  Args.well_formed this
  ∧ Args.type options = Args.Inline Samples.integer
  ∧ (∀ text, Samples.as_integer text
             = match Argument.run Samples.integer text (Args.context this options) with
               | Ok v => Some v
               | Err _ => None
               end)
  ∧ (Args.nextMaybe (Some Samples.as_integer) this).2
    = (Args.pickResult Samples.registry options this).2
  ∧ (Args.nextMaybe (Some Samples.as_integer) this).1
    = match (Args.pickResult Samples.registry options this).1 with
      | Ok v => Some (inl v)
      | Err _ => None
      end.
Proof.
  simpl. split; [sample_well_formed|]. split; [reflexivity|].
  split; [intros text; reflexivity|].
  apply (nextMaybe_as_pickResult Samples.registry Samples.as_integer
           Samples.integer (Samples.inline Samples.integer)
           (Samples.facade ["7"; "x"]));
    [sample_well_formed|reflexivity|intros text; reflexivity].
Defined.

Lemma RunIn_refusal_carries_types_witness :
  let fetch := λ c : Preconditions.Channel, c in
  let inv := Preconditions.ByMessage (Samples.message_in Preconditions.DM) in
  let context :=
    {| Preconditions.types :=
         Some (Preconditions.TypesArray [Preconditions.GuildText]) |} in
  let e :=
    {| Preconditions.user_error :=
         {| identifier := Identifiers.PreconditionRunIn;
            error_message :=
              "You cannot run this message command in this type of channel." |};
       Preconditions.error_context := Preconditions.types context |} in
  Preconditions.entry (Preconditions.RunIn fetch) inv context = Err e
  ∧ identifier (Preconditions.user_error e) = Identifiers.PreconditionRunIn
  ∧ Preconditions.error_context e = Preconditions.types context
  ∧ is_Some (Preconditions.types context).
Proof.
  simpl. split; [reflexivity|].
  apply (RunIn_refusal_carries_types (λ c : Preconditions.Channel, c)
           (Preconditions.ByMessage (Samples.message_in Preconditions.DM))
           {| Preconditions.types :=
                Some (Preconditions.TypesArray [Preconditions.GuildText]) |}
           {| Preconditions.user_error :=
                {| identifier := Identifiers.PreconditionRunIn;
                   error_message :=
                     "You cannot run this message command in this type of channel." |};
              Preconditions.error_context :=
                Some (Preconditions.TypesArray [Preconditions.GuildText]) |}).
  reflexivity.
Defined.

Lemma RunIn_shared_list_by_kind_witness :
  let fetch := λ c : Preconditions.Channel, c in
  let inv1 := Preconditions.ByMessage (Samples.message_in Preconditions.GuildText) in
  let inv2 := Preconditions.ByContextMenu (Samples.in_channel Preconditions.GuildText) in
  let context :=
    {| Preconditions.types :=
         Some (Preconditions.TypesArray [Preconditions.GuildText]) |} in
  Preconditions.channel_type (Preconditions.resolved_channel fetch inv1)
    = Preconditions.channel_type (Preconditions.resolved_channel fetch inv2)
  ∧ Preconditions.entry (Preconditions.RunIn fetch) inv1 context
    = Preconditions.entry (Preconditions.RunIn fetch) inv2 context.
Proof.
  simpl. split; [reflexivity|].
  apply (RunIn_shared_list_by_kind (λ c : Preconditions.Channel, c)
           (Preconditions.ByMessage (Samples.message_in Preconditions.GuildText))
           (Preconditions.ByContextMenu (Samples.in_channel Preconditions.GuildText))
           [Preconditions.GuildText]).
  reflexivity.
Defined.

Lemma GuildNewsOnly_entry_points_agree_witness :
  let fetch := λ c : Preconditions.Channel, c in
  let inv1 := Preconditions.ByMessage (Samples.message_in Preconditions.GuildNews) in
  let inv2 := Preconditions.ByChatInput (Samples.in_channel Preconditions.GuildNews) in
  Preconditions.channel_type (Preconditions.resolved_channel fetch inv1)
    = Preconditions.channel_type (Preconditions.resolved_channel fetch inv2)
  ∧ Preconditions.refusal
      (Preconditions.entry (Preconditions.GuildNewsOnly fetch) inv1 tt)
    = Preconditions.refusal
        (Preconditions.entry (Preconditions.GuildNewsOnly fetch) inv2 tt).
Proof.
  simpl. split; [reflexivity|].
  apply (GuildNewsOnly_entry_points_agree (λ c : Preconditions.Channel, c)
           (Preconditions.ByMessage (Samples.message_in Preconditions.GuildNews))
           (Preconditions.ByChatInput (Samples.in_channel Preconditions.GuildNews))).
  reflexivity.
Defined.

(** The run steps of [thrower] and [claimer] return. *)
Ltac sample_runs_return :=
  let h := fresh "h" in
  let Hin := fresh "Hin" in
  intros h Hin;
  repeat (apply elem_of_cons in Hin as [->|Hin];
          [intros value; eexists; reflexivity|]);
  apply elem_of_nil in Hin; destruct Hin.

Lemma store_run_parse_isolated_witness :
  let store := [Samples.thrower; Samples.claimer] in
  Samples.thrower ∈ store
  ∧ Samples.claimer ∈ store
  ∧ InteractionHandlers.accepts Samples.thrower Samples.button = true
  ∧ InteractionHandlers.accepts Samples.claimer Samples.button = true
  ∧ InteractionHandlers.parse_throws Samples.thrower Samples.button
  ∧ InteractionHandlers.parse_claims Samples.claimer Samples.button
      InteractionHandlers.undefined
  ∧ (∀ handler, handler ∈ store →
       InteractionHandlers.run_returns handler Samples.button)
  ∧ (Samples.claimer, InteractionHandlers.undefined)
      ∈ InteractionHandlers.called (InteractionHandlers.store_run store Samples.button)
  ∧ InteractionHandlers.completion (InteractionHandlers.store_run store Samples.button)
    = InteractionHandlers.Fulfilled tt.
Proof.
  simpl.
  split; [apply list_elem_of_here|].
  split; [apply list_elem_of_further, list_elem_of_here|].
  split; [reflexivity|]. split; [reflexivity|]. split; [exact I|].
  split; [reflexivity|]. split; [sample_runs_return|].
  apply (store_run_parse_isolated [Samples.thrower; Samples.claimer] Samples.button
           Samples.thrower Samples.claimer InteractionHandlers.undefined).
  - apply list_elem_of_here.
  - apply list_elem_of_further, list_elem_of_here.
  - reflexivity.
  - reflexivity.
  - exact I.
  - reflexivity.
  - sample_runs_return.
Defined.

Lemma store_run_calls_the_claims_witness :
  let store := [Samples.thrower; Samples.claimer] in
  (∀ handler, handler ∈ store →
     InteractionHandlers.run_returns handler Samples.button)
  ∧ InteractionHandlers.called (InteractionHandlers.store_run store Samples.button)
    = omap (InteractionHandlers.claimed Samples.button) store
  ∧ length (InteractionHandlers.settled
              (InteractionHandlers.store_run store Samples.button))
    = length (omap (InteractionHandlers.claimed Samples.button) store)
  ∧ InteractionHandlers.completion (InteractionHandlers.store_run store Samples.button)
    = InteractionHandlers.Fulfilled tt.
Proof.
  simpl. split; [sample_runs_return|].
  apply (store_run_calls_the_claims [Samples.thrower; Samples.claimer] Samples.button).
  sample_runs_return.
Defined.

Lemma store_run_calls_only_claims_witness :
  let store := [Samples.thrower; Samples.claimer] in
  (Samples.claimer, InteractionHandlers.undefined)
    ∈ InteractionHandlers.called (InteractionHandlers.store_run store Samples.button)
  ∧ Samples.claimer ∈ store
  ∧ InteractionHandlers.accepts Samples.claimer Samples.button = true
  ∧ InteractionHandlers.parse_claims Samples.claimer Samples.button
      InteractionHandlers.undefined.
Proof.
  simpl. split; [apply list_elem_of_here|].
  apply (store_run_calls_only_claims [Samples.thrower; Samples.claimer]
           Samples.button Samples.claimer InteractionHandlers.undefined).
  apply list_elem_of_here.
Defined.

Lemma store_run_no_component_witness :
  let store := [Samples.thrower; Samples.crasher; Samples.claimer] in
  InteractionHandlers.isButton Samples.plain = false
  ∧ InteractionHandlers.isSelectMenu Samples.plain = false
  ∧ InteractionHandlers.isMessageComponent Samples.plain = false
  ∧ InteractionHandlers.store_run store Samples.plain
    = {| InteractionHandlers.called := [];
         InteractionHandlers.settled := [];
         InteractionHandlers.completion := InteractionHandlers.Fulfilled tt |}.
Proof.
  simpl. split; [reflexivity|]. split; [reflexivity|]. split; [reflexivity|].
  apply (store_run_no_component
           [Samples.thrower; Samples.crasher; Samples.claimer] Samples.plain);
    reflexivity.
Defined.

Lemma store_run_stops_at_throw_witness :
  let before := [Samples.thrower; Samples.claimer] in
  let after := [Samples.claimer] in
  let store := before ++ Samples.crasher :: after in
  (InteractionHandlers.loop Samples.button before InteractionHandlers.initial).2 = None
  ∧ InteractionHandlers.accepts Samples.crasher Samples.button = true
  ∧ InteractionHandlers.parse_claims Samples.crasher Samples.button
      InteractionHandlers.undefined
  ∧ InteractionHandlers.run Samples.crasher Samples.button InteractionHandlers.undefined
    = InteractionHandlers.Throws "run failed"
  ∧ InteractionHandlers.called (InteractionHandlers.store_run store Samples.button)
    = InteractionHandlers.invoked
        (InteractionHandlers.loop Samples.button before InteractionHandlers.initial).1
      ++ [(Samples.crasher, InteractionHandlers.undefined)]
  ∧ InteractionHandlers.settled (InteractionHandlers.store_run store Samples.button) = []
  ∧ InteractionHandlers.completion (InteractionHandlers.store_run store Samples.button)
    = InteractionHandlers.Rejected "run failed".
Proof.
  split; [reflexivity|]. split; [reflexivity|]. split; [reflexivity|].
  split; [reflexivity|].
  apply (store_run_stops_at_throw [Samples.thrower; Samples.claimer] Samples.crasher
           [Samples.claimer] Samples.button InteractionHandlers.undefined
           "run failed"); reflexivity.
Defined.

Lemma autocomplete_is_contained_witness :
  let commandStore : gmap string (Listeners.Command string) :=
    {[ "1001" := Samples.failing_command ]} in
  let interactionHandlers := [Samples.claimer] in
  let outcome :=
    Listeners.run (D := unit) commandStore interactionHandlers Samples.completing in
  Listeners.resolve commandStore Samples.completing = Some Samples.failing_command
  ∧ (∃ autocomplete,
       Listeners.autocompleteRun Samples.failing_command = Some autocomplete)
  ∧ Listeners.completion outcome = InteractionHandlers.Fulfilled tt
  ∧ Listeners.handlers outcome = None
  ∧ Listeners.emitted outcome
    = [Listeners.CommandAutocompleteInteractionError "autocomplete failed"
         (Listeners.payload_of Samples.failing_command Samples.completing)].
Proof.
  simpl. split; [vm_compute; reflexivity|]. split; [eexists; reflexivity|].
  apply (autocomplete_is_contained (D := unit)
           {[ "1001" := Samples.failing_command ]} [Samples.claimer]
           Samples.completing Samples.failing_command
           (λ _, InteractionHandlers.Throws "autocomplete failed"));
    [vm_compute; reflexivity|reflexivity].
Defined.


(** ** Exceptions at sample inputs *)




Lemma inherited_parse_turn_witness :
  InteractionHandlers.parse Samples.claimer = InteractionHandlers.InteractionHandler_parse
  ∧ InteractionHandlers.accepts Samples.claimer Samples.button = true
  ∧ InteractionHandlers.parse Samples.claimer Samples.button
    = InteractionHandlers.Returns
        (InteractionHandlers.Fulfilled
           (InteractionHandlers.some InteractionHandlers.undefined))
  ∧ InteractionHandlers.iteration Samples.button Samples.claimer
      InteractionHandlers.initial
    = ({| InteractionHandlers.promises :=
            [InteractionHandlers.Fulfilled InteractionHandlers.undefined];
          InteractionHandlers.invoked :=
            [(Samples.claimer, InteractionHandlers.undefined)] |}, None).
Proof.
  split; [reflexivity|]. split; [reflexivity|].
  apply (inherited_parse_turn Samples.claimer Samples.button
           InteractionHandlers.initial); reflexivity.
Defined.

(** C10, at an input where it fails.  [claimer] keeps the inherited
    [parse] and its type filter accepts the button interaction, but
    [crasher] comes first in the store and its run step throws while it
    is called: the exception leaves the loop, the promise of the
    store's [run] rejects, and the run step of [claimer] is never
    applied -- the outcome is the same whatever that run step is. *)
Theorem inherited_parse_handler_not_run :
  let store := [Samples.crasher; Samples.claimer] in
  let outcome :=
    {| InteractionHandlers.called :=
         [(Samples.crasher, InteractionHandlers.undefined)];
       InteractionHandlers.settled := [];
       InteractionHandlers.completion :=
         InteractionHandlers.Rejected "run failed" |} in
  InteractionHandlers.parse Samples.claimer
    = InteractionHandlers.InteractionHandler_parse
  ∧ InteractionHandlers.accepts Samples.claimer Samples.button = true
  ∧ InteractionHandlers.store_run store Samples.button = outcome
  ∧ ((Samples.claimer, InteractionHandlers.undefined)
      ∉ InteractionHandlers.called (InteractionHandlers.store_run store Samples.button))
  ∧ (∀ run_step,
       InteractionHandlers.store_run
         [Samples.crasher; Samples.claimer_running run_step] Samples.button
       = outcome).
Proof.
  simpl. split; [reflexivity|]. split; [reflexivity|]. split; [reflexivity|].
  split; [|reflexivity].
  unfold InteractionHandlers.store_run; simpl.
  intros Hin. apply list_elem_of_singleton in Hin. discriminate Hin.
Qed.
